(** * Marp2PPTX: the post-processing helpers, embedded and verified

    A shallow embedding of the pure parts of the Marp2PPTX repair pipeline:
    - [Py]: the Python string primitives the code relies on (text is a
      sequence of Unicode code points);
    - [Preprocessing]: [remove_invisible_characters] (src/preprocessing.py);
    - [Css]: the regex-based stylesheet helpers of src/render_div_as_image.py;
    - [Render]: the stages of the rasterizer [main] of the same file;
    - [Region], [Prune]: the region calculator and the white-rectangle pruning
      pass of the post-processing module;
    - [Orchestrator]: [process_pptx_html] (main.py). *)

From Stdlib Require Import ZArith NArith List Bool Lia String Ascii.
From Stdlib Require Import DecimalString DecimalZ.
From Stdlib Require Import Floats.
Import ListNotations.

(* ===================================================================== *)
(** * Python strings *)
(* ===================================================================== *)

Module Py.
Local Open Scope N_scope.

(** A Python [str] is a sequence of Unicode code points. *)
Definition char := N.
Definition str := list char.

(** ASCII literals of the source, read as code points. *)
Definition of_string (s : string) : str :=
  map N_of_ascii (list_ascii_of_string s).

Definition char_eqb (a b : char) : bool := N.eqb a b.

Fixpoint str_eqb (a b : str) : bool :=
  match a, b with
  | [], [] => true
  | x :: a', y :: b' => char_eqb x y && str_eqb a' b'
  | _, _ => false
  end.

(** [c in lo..hi], both ends included. *)
Definition in_range (lo hi c : char) : bool := (N.leb lo c && N.leb c hi)%bool.

(** [str.isspace] on one code point; also the class [\s] of [re] on text
    patterns. *)
Definition isspace (c : char) : bool :=
  (in_range 9 13 c || in_range 28 32 c || char_eqb c 133 || char_eqb c 160
   || char_eqb c 5760 || in_range 8192 8202 c || char_eqb c 8232
   || char_eqb c 8233 || char_eqb c 8239 || char_eqb c 8287
   || char_eqb c 12288)%bool.

(** [s.startswith(p)]: on success the rest of [s] after [p]. *)
Fixpoint strip_prefix (p s : str) : option str :=
  match p, s with
  | [], _ => Some s
  | x :: p', y :: s' => if char_eqb x y then strip_prefix p' s' else None
  | _ :: _, [] => None
  end.

Definition startswith (s p : str) : bool :=
  match strip_prefix p s with Some _ => true | None => false end.

Definition endswith (s p : str) : bool := startswith (rev s) (rev p).

(** [s.lstrip()], [s.rstrip()], [s.strip()] with no argument. *)
Fixpoint drop_while (f : char -> bool) (s : str) : str :=
  match s with
  | [] => []
  | c :: s' => if f c then drop_while f s' else s
  end.

Fixpoint take_while (f : char -> bool) (s : str) : str :=
  match s with
  | [] => []
  | c :: s' => if f c then c :: take_while f s' else []
  end.

Definition lstrip (s : str) : str := drop_while isspace s.
Definition rstrip (s : str) : str := rev (drop_while isspace (rev s)).
Definition strip (s : str) : str := rstrip (lstrip s).

(** [s.split(sep)] for a one-character separator: always at least one
    piece. *)
Fixpoint split (sep : char) (s : str) : list str :=
  match s with
  | [] => [[]]
  | c :: s' =>
      if char_eqb c sep then [] :: split sep s'
      else match split sep s' with
           | [] => [[c]]
           | p :: ps => (c :: p) :: ps
           end
  end.

(** [str(n)] for an [int]. *)
Definition str_of_int (n : Z) : str :=
  of_string (NilEmpty.string_of_int (Z.to_int n)).

(** The characters of the decimal form of an integer: the sign (45) and
    the digits; in particular no underscore (95). *)
Definition digit_or_sign (c : char) : Prop := c = 45 \/ 48 <= c <= 57.

(** Truthiness of an optional string: [None] and the empty string are
    false. *)
Definition truthy (o : option str) : bool :=
  match o with
  | Some (_ :: _) => true
  | _ => false
  end.

End Py.

(** Short name for the literals of the examples. *)
Definition u : string -> Py.str := Py.of_string.

(* ===================================================================== *)
(** * src/preprocessing.py *)
(* ===================================================================== *)

Module Preprocessing.
Import Py.

(** The character class of [invisible_chars_pattern]: U+200B, U+200C,
    U+200D, U+FEFF, U+200E and U+200F. *)
Definition invisible_chars : list char :=
  [8203; 8204; 8205; 65279; 8206; 8207]%N.

Definition is_invisible (c : char) : bool := existsb (char_eqb c) invisible_chars.

(** [re.sub(pattern, repl, s)] for a pattern that is one character class:
    the scan replaces each matching character and copies every other one. *)
Fixpoint re_sub_class (cls : char -> bool) (repl s : str) : str :=
  match s with
  | [] => []
  | c :: s' =>
      if cls c then repl ++ re_sub_class cls repl s'
      else c :: re_sub_class cls repl s'
  end.

Definition remove_invisible_characters (content : str) : str :=
  re_sub_class is_invisible [] content.

End Preprocessing.

(* ===================================================================== *)
(** * src/render_div_as_image.py: the stylesheet helpers *)
(* ===================================================================== *)

Module Css.
Import Py.
Local Open Scope N_scope.

Definition LBRACE : char := 123.
Definition RBRACE : char := 125.
Definition RPAREN : char := 41.
Definition COMMA : char := 44.
Definition DOT : char := 46.
Definition COLON : char := 58.
Definition SEMI : char := 59.
Definition NEWLINE : char := 10.
Definition DQUOTE : char := 34.
Definition SQUOTE : char := 39.

Definition is_not (x : char) (c : char) : bool := negb (char_eqb c x).

(** The class [[0-9A-Za-z_-]] of the selector pattern. *)
Definition is_ident_char (c : char) : bool :=
  (in_range 48 57 c || in_range 65 90 c || in_range 97 122 c
   || char_eqb c 95 || char_eqb c 45)%bool.

(** [re.search(p, s)] for a pattern with no [^]: the first start position,
    left to right, at which the anchored matcher [m] succeeds. *)
Fixpoint re_search {A : Type} (m : str -> option A) (s : str) : option A :=
  match m s with
  | Some a => Some a
  | None =>
      match s with
      | [] => None
      | _ :: s' => re_search m s'
      end
  end.

(** One match of [([^{]+)\{([^}]+)\}] anchored at the start of [s]:
    group 1, group 2. Both classes are negated one-character classes, so
    the greedy runs are the only way to match. *)
Definition match_rule (s : str) : option (str * str) :=
  match take_while (is_not LBRACE) s, drop_while (is_not LBRACE) s with
  | (_ :: _) as selectors, _ :: rest =>
      match take_while (is_not RBRACE) rest, drop_while (is_not RBRACE) rest with
      | (_ :: _) as body, _ :: _ => Some (selectors, body)
      | _, _ => None
      end
  | _, _ => None
  end.

(** [re.finditer(r"([^{]+)\{([^}]+)\}", css)]: the matches left to right,
    none overlapping. [skip] counts the characters of the previous match
    still to pass before the next match may start. *)
Fixpoint finditer_rules (skip : nat) (s : str) : list (str * str) :=
  match s with
  | [] => []
  | _ :: s' =>
      match skip with
      | S k => finditer_rules k s'
      | O =>
          match match_rule s with
          | Some (selectors, body) =>
              (selectors, body)
                :: finditer_rules (List.length selectors + List.length body + 1)%nat s'
          | None => finditer_rules 0 s'
          end
      end
  end.

(** [\.<class>($|[^0-9A-Za-z_-])] anchored at the start of [s]; the class
    name is escaped, so it is matched literally. *)
Definition match_dot_class (class_name s : str) : bool :=
  match s with
  | c :: s1 =>
      (char_eqb c DOT &&
       match strip_prefix class_name s1 with
       | Some [] => true
       | Some (d :: _) => negb (is_ident_char d)
       | None => false
       end)%bool
  | [] => false
  end.

(** [re.search(rf"(^|[^0-9A-Za-z_-])\.{class}($|[^0-9A-Za-z_-])", s)]
    as a truth value. [at_start] says whether [s] is the whole selector, so
    that [^] holds. At each start position the first alternative of the
    leading group is tried before the second. *)
Fixpoint search_class (at_start : bool) (class_name s : str) : bool :=
  ((at_start && match_dot_class class_name s)
   || match s with
      | [] => false
      | c :: s' =>
          (negb (is_ident_char c) && match_dot_class class_name s')
          || search_class false class_name s'
      end)%bool.

(** [sel_list = [s.strip() for s in selectors.split(",")]]. *)
Definition sel_list (selectors : str) : list str :=
  map strip (split COMMA selectors).

(** The two loops of [_css_block_for_class] over the matches. *)
Fixpoint first_block (class_name : str) (rules : list (str * str)) : option str :=
  match rules with
  | [] => None
  | (selectors, body) :: rules' =>
      if existsb (search_class true class_name) (sel_list selectors)
      then Some body
      else first_block class_name rules'
  end.

Definition _css_block_for_class (css : option str) (class_name : str) : option str :=
  match css with
  | Some ((_ :: _) as text) => first_block class_name (finditer_rules 0 text)
  | _ => None
  end.

(** Case-insensitive match of one literal ASCII character of a pattern
    compiled with [re.IGNORECASE]: the other case of a letter, and the four
    non-ASCII letters that fold to [i], [k] and [s]. *)
Definition ci_match (lit c : char) : bool :=
  let lower (x : char) := if in_range 65 90 x then x + 32 else x in
  let l := lower lit in
  (char_eqb (lower c) l
   || (char_eqb l 105 && (char_eqb c 304 || char_eqb c 305))
   || (char_eqb l 107 && char_eqb c 8490)
   || (char_eqb l 115 && char_eqb c 383))%bool.

Fixpoint strip_prefix_ci (p s : str) : option str :=
  match p, s with
  | [], _ => Some s
  | x :: p', y :: s' => if ci_match x y then strip_prefix_ci p' s' else None
  | _ :: _, [] => None
  end.

(** [{prop}\s*:\s*([^;]+)] with [re.IGNORECASE], anchored at the start of
    [s]: group 1. When nothing but [;] or the end follows the blanks after
    the colon, the engine backtracks and the group is the last blank. *)
Definition match_property (prop s : str) : option str :=
  match strip_prefix_ci prop s with
  | None => None
  | Some r1 =>
      match drop_while isspace r1 with
      | c :: r2 =>
          if char_eqb c COLON then
            match take_while (is_not SEMI) (drop_while isspace r2) with
            | (_ :: _) as value => Some value
            | [] =>
                match rev (take_while isspace r2) with
                | w :: _ => Some [w]
                | [] => None
                end
            end
          else None
      | [] => None
      end
  end.

Definition _extract_css_property (block : option str) (prop : str) : option str :=
  match block with
  | Some ((_ :: _) as text) =>
      match re_search (match_property prop) text with
      | Some g => Some (strip g)
      | None => None
      end
  | _ => None
  end.

End Css.

(* ===================================================================== *)
(** * src/render_div_as_image.py: the rasterizer [main], stage by stage *)
(* ===================================================================== *)

Module Render.
Import Py Css.

(** ** Numbers: Python [int] is [Z], Python [float] is a binary64 float *)

(** [float(n)] for an [int]; exact below 2^53, which image sizes are. *)
Definition float_of_int (n : Z) : float :=
  if (n <? 0)%Z then PrimFloat.opp (PrimFloat.of_uint63 (Uint63.of_Z (- n)))
  else PrimFloat.of_uint63 (Uint63.of_Z n).

(** [int(x)] for a [float]: truncation toward zero; [None] when Python
    raises (infinities and NaN). *)
Definition py_int (x : float) : option Z :=
  match Prim2SF x with
  | S754_zero _ => Some 0%Z
  | S754_finite s m e =>
      let a := if (0 <=? e)%Z then (Zpos m * 2 ^ e)%Z else (Zpos m / 2 ^ (- e))%Z in
      Some (if s then (- a)%Z else a)
  | _ => None
  end.

(** The builtin [max(a, b)] on floats: [b] only when it is greater. *)
Definition float_max (a b : float) : float := if PrimFloat.ltb a b then b else a.

(** ** The fragment, as BeautifulSoup presents it *)

Record ImgTag := {
  img_src : option str;      (* [has_attr("src")] and [get("src")] *)
  img_style : option str     (* [get("style")] *)
}.

Record DivTag := {
  div_class : option (list str);   (* [get("class")] *)
  div_style_attr : option str;     (* [get("style")] *)
  div_img : option ImgTag          (* [find("img")] *)
}.

Definition or_empty (o : option str) : str :=
  match o with Some s => s | None => [] end.

Definition div_classes (d : DivTag) : list str :=
  match div_class d with Some l => l | None => [] end.

Definition div_style (d : DivTag) : str := or_empty (div_style_attr d).

(** ** What the run depends on outside the program *)

(** The one [ImageDraw] call made on the mask, always over the box
    [[0, 0, target_w, target_h]] with fill 255. *)
Inductive mask_call :=
| Ellipse
| RoundedRectangle (radius : Z)
| Rectangle.

Record World := {
  Image : Type;
  http_url_valid : str -> bool;         (* [HttpUrl(s)] raises no ValidationError *)
  is_file : str -> option bool;         (* [Path(s).is_file()]; [None]: it raises
                                           OSError, as for a name that is too long *)
  path_str : str -> str;                (* [str(Path(s))] *)
  download_image : str -> option Image; (* [_download_image]; [None]: it raised *)
  open_image : str -> option Image;     (* [Image.open(s).convert("RGB")] *)
  pillow_completes : Image -> DivTag -> option str -> option str -> bool;
                                        (* lines 157-383 raise nothing *)
  nd_value : char -> option Z;          (* value of a non-ASCII decimal digit *)
  int_max_str_digits : nat;             (* [sys.get_int_max_str_digits()]: 4300
                                           unless changed, 0 for no limit *)
  draw_paints : mask_call -> Z -> Z -> Z -> Z -> bool;
                                        (* whether Pillow's [ellipse] or
                                           [rounded_rectangle], drawn over the box
                                           [[0, 0, w, h]], paints pixel [(x, y)] *)
  tempdir : str;                        (* [tempfile.gettempdir()] *)
  getpid : Z                            (* [os.getpid()] *)
}.

Section Stages.
Variable W : World.

(** The class [\d] of [re] on text, and the digit values [int] reads. *)
Definition digit_value (c : char) : option Z :=
  if in_range 48%N 57%N c then Some (Z.of_N c - 48)%Z
  else if N.ltb c 128%N then None
  else nd_value W c.

Definition is_digit (c : char) : bool :=
  match digit_value c with Some _ => true | None => false end.

(** The number a run of digits writes. *)
Definition int_of_digits (ds : str) : Z :=
  fold_left
    (fun acc c => match digit_value c with
                  | Some v => (10 * acc + v)%Z
                  | None => acc
                  end)
    ds 0%Z.

(** [int(s)] for a run of digits; [None] when it raises [ValueError]: the
    run has more digits, leading zeros counted, than the limit allows. The
    limit is looked at only for runs of more than 640 digits. *)
Definition py_int_of_digits (ds : str) : option Z :=
  if (Nat.ltb 640 (List.length ds)
      && Nat.ltb 0 (int_max_str_digits W)
      && Nat.ltb (int_max_str_digits W) (List.length ds))%bool
  then None
  else Some (int_of_digits ds).

(** ** Lines 99-125: the source of the image *)

Definition is_quote (c : char) : bool := (char_eqb c SQUOTE || char_eqb c DQUOTE)%bool.

(** [(.+?)] followed by the rest of a pattern, [close]: the shortest
    non-empty run of characters other than a newline after which [close]
    matches. *)
Fixpoint lazy_group (close : str -> bool) (s : str) : option str :=
  match s with
  | [] => None
  | c :: s' =>
      if char_eqb c NEWLINE then None
      else if close s' then Some [c]
      else option_map (cons c) (lazy_group close s')
  end.

(** An optional quote, then [(.+?)], then [close]: the quote is taken when
    present, and given back when the rest fails with it. *)
Definition url_group (close : str -> bool) (r : str) : option str :=
  match r with
  | q :: r' =>
      if is_quote q then
        match lazy_group close r' with
        | Some g => Some g
        | None => lazy_group close r
        end
      else lazy_group close r
  | [] => None
  end.

(** An optional quote, then [\)]: the text after them. *)
Definition close_paren (r : str) : option str :=
  match r with
  | c :: r' =>
      if char_eqb c RPAREN then Some r'
      else if is_quote c then
        match r' with
        | d :: r'' => if char_eqb d RPAREN then Some r'' else None
        | [] => None
        end
      else None
  | [] => None
  end.

(** The end of the inline pattern: an optional quote, [\)\s*(?=;|$)]. *)
Definition close_inline (r : str) : bool :=
  match close_paren r with
  | Some r' =>
      match drop_while isspace r' with
      | [] => true
      | c :: _ => char_eqb c SEMI
      end
  | None => false
  end.

(** The end of the class-rule pattern: an optional quote, [\)]. *)
Definition close_class (r : str) : bool :=
  match close_paren r with Some _ => true | None => false end.

(** The inline pattern [background-image:\s*url\(Q(.+?)Q\)\s*(?=;|$)]
    with [re.IGNORECASE], where Q is an optional single or double quote,
    anchored: group 1. *)
Definition match_inline_bg (s : str) : option str :=
  match strip_prefix_ci (u "background-image:") s with
  | Some r =>
      match strip_prefix_ci (u "url(") (drop_while isspace r) with
      | Some r' => url_group close_inline r'
      | None => None
      end
  | None => None
  end.

(** [url\(Q(.+?)Q\)], anchored: group 1. *)
Definition match_url (s : str) : option str :=
  match strip_prefix (u "url(") s with
  | Some r => url_group close_class r
  | None => None
  end.

(** The loop over [div_classes] looking for a [background-image] rule. *)
Fixpoint class_background (css : option str) (classes : list str) : str :=
  match classes with
  | [] => []
  | class_name :: rest =>
      let body := _css_block_for_class css class_name in
      if negb (truthy body) then class_background css rest
      else
        let bg_val := _extract_css_property body (u "background-image") in
        if negb (truthy bg_val) then class_background css rest
        else
          match re_search match_url (or_empty bg_val) with
          | Some g => g
          | None => class_background css rest
          end
  end.

Definition src_str (d : DivTag) (css : option str) : str :=
  match div_img d with
  | Some {| img_src := Some src |} => src
  | _ =>
      match re_search match_inline_bg (div_style d) with
      | Some g => g
      | None => if truthy css then class_background css (div_classes d) else []
      end
  end.

(** ** Lines 127-155: validating and loading *)

(** How these lines end: with an image, with [return None], or with the
    exception of [Path(src_str).is_file()], which no [try] encloses. *)
Inductive loaded :=
| Loaded (img : Image W)
| NoImage
| FileTestRaises.

Definition load_image (d : DivTag) (css : option str) : loaded :=
  match src_str d css with
  | [] => NoImage
  | (_ :: _) as src =>
      if http_url_valid W src then
        match download_image W src with
        | Some img => Loaded img
        | None => NoImage
        end
      else
        match is_file W src with
        | None => FileTestRaises
        | Some false => NoImage
        | Some true =>
            match open_image W (path_str W src) with
            | Some img => Loaded img
            | None => NoImage
            end
        end
  end.

(** ** Lines 157-193: the target size *)

(** [<prop>:\s*(\d+)px], anchored: group 1 as [int] reads it, [Some None]
    when [int] raises on it. *)
Definition match_px (prop_colon : str) (s : str) : option (option Z) :=
  match strip_prefix prop_colon s with
  | Some r =>
      let r1 := drop_while isspace r in
      match take_while is_digit r1 with
      | (_ :: _) as ds =>
          if startswith (drop_while is_digit r1) (u "px")
          then Some (py_int_of_digits ds) else None
      | [] => None
      end
  | None => None
  end.

(** [m = re.search(...); if m: try: target = int(m.group(1)) except
    Exception: ...], starting from 400. *)
Definition inline_px (prop_colon : str) (style : str) : Z :=
  match re_search (match_px prop_colon) style with
  | Some (Some n) => n
  | Some None => 400%Z
  | None => 400%Z
  end.

(** [if v and v.strip().endswith("px"): m = re.match(r"(\d+)", v.strip())],
    the new value when [m] matches, else the old one; [None] when [int]
    raises. *)
Definition class_px (v : option str) (old : Z) : option Z :=
  if truthy v && endswith (strip (or_empty v)) (u "px") then
    match take_while is_digit (strip (or_empty v)) with
    | (_ :: _) as ds => py_int_of_digits ds
    | [] => Some old
    end
  else Some old.

(** The loop over [div_classes]: the first class with a block decides, and
    the loop ends there. Width and height are read inside one [try]: when
    [int] raises on the width the height is not read, and what was assigned
    before the exception stays. *)
Fixpoint class_size (css : option str) (classes : list str) (wh : Z * Z) : Z * Z :=
  match classes with
  | [] => wh
  | class_name :: rest =>
      let body := _css_block_for_class css class_name in
      if negb (truthy body) then class_size css rest wh
      else
        match class_px (_extract_css_property body (u "width")) (fst wh) with
        | None => wh
        | Some target_w =>
            match class_px (_extract_css_property body (u "height")) (snd wh) with
            | None => (target_w, snd wh)
            | Some target_h => (target_w, target_h)
            end
        end
  end.

Definition target_size (d : DivTag) (css : option str) : Z * Z :=
  let target_w := inline_px (u "width:") (div_style d) in
  let target_h := inline_px (u "height:") (div_style d) in
  if truthy css then class_size css (div_classes d) (target_w, target_h)
  else (target_w, target_h).

(** ** Lines 289-310: [object-fit: cover] *)

(** The resolved [object-position]: a pair of percentages, a pair of pixel
    offsets, or neither (the four optional variables of the source; the
    pixel pattern is tried only when the percentage pattern finds nothing). *)
Inductive object_position :=
| PosPct (x_pct y_pct : float)
| PosPx (x_px y_px : Z)
| PosDefault.

Definition pos_x (p : object_position) : option float * option Z :=
  match p with
  | PosPct x _ => (Some x, None)
  | PosPx x _ => (None, Some x)
  | PosDefault => (None, None)
  end.

Definition pos_y (p : object_position) : option float * option Z :=
  match p with
  | PosPct _ y => (Some y, None)
  | PosPx _ y => (None, Some y)
  | PosDefault => (None, None)
  end.

(** [ox] (and [oy]) from the overflow [sw - target_w_inner]. *)
Definition cover_offset (overflow : Z) (pos : option float * option Z) : option Z :=
  match pos with
  | (Some pct, _) => py_int (float_of_int overflow * (pct / 100))%float
  | (None, Some px) => Some px
  | (None, None) => Some (overflow / 2)%Z
  end.

Record cover_result := {
  scaled_w : Z;   (* [sw] *)
  scaled_h : Z;   (* [sh] *)
  crop_left : Z;  (* [left] *)
  crop_top : Z    (* [top] *)
}.

(** The crop box is [(left, top, left + target_w, top + target_h)] inside
    the image resized to [(sw, sh)]; [None] when a conversion raises. *)
Definition cover (img_w img_h target_w target_h : Z) (pos : object_position)
  : option cover_result :=
  let scale :=
    float_max (float_of_int target_w / float_of_int img_w)%float
              (float_of_int target_h / float_of_int img_h)%float in
  match py_int (float_of_int img_w * scale)%float,
        py_int (float_of_int img_h * scale)%float with
  | Some w, Some h =>
      let sw := Z.max 1 w in
      let sh := Z.max 1 h in
      match cover_offset (sw - target_w) (pos_x pos),
            cover_offset (sh - target_h) (pos_y pos) with
      | Some ox, Some oy =>
          Some {| scaled_w := sw; scaled_h := sh;
                  crop_left := Z.max 0 (Z.min (sw - target_w) ox);
                  crop_top := Z.max 0 (Z.min (sh - target_h) oy) |}
      | _, _ => None
      end
  | _, _ => None
  end.

(** ** Lines 344-364: the alpha mask *)


(** The value of pixel [(x, y)] of the [w] by [h] mask after the call. The
    mask starts at 0 everywhere and the call fills with 255. [rectangle]
    over [[0, 0, w, h]] covers every pixel of the mask; which pixels the two
    curved shapes cover is Pillow's rasterization, taken from the world. *)
Definition mask_alpha (c : mask_call) (w h x y : Z) : Z :=
  let painted :=
    match c with
    | Rectangle => true
    | _ => draw_paints W c w h x y
    end in
  if ((0 <=? x) && (x <? w) && (0 <=? y) && (y <? h) && painted)%Z%bool
  then 255%Z else 0%Z.

(** ** Lines 373-376: where the bitmap is written *)

(** [slide_index or 0]: [None] and 0 both give 0. *)
Definition or_zero (i : option Z) : Z :=
  match i with Some n => n | None => 0%Z end.

(** [os.path.join(a, b)] on POSIX. *)
Definition os_path_join (a b : str) : str :=
  if startswith b (u "/") then b
  else match a with
       | [] => b
       | _ :: _ => if endswith a (u "/") then a ++ b else a ++ u "/" ++ b
       end.

Definition png_name (slide_index div_index : option Z) : str :=
  u "div_render_pillow_" ++ str_of_int (getpid W) ++ u "_"
    ++ str_of_int (or_zero slide_index) ++ u "_"
    ++ str_of_int (or_zero div_index) ++ u ".png".

Definition png_path (slide_index div_index : option Z) : str :=
  os_path_join (tempdir W) (png_name slide_index div_index).

(** ** [main]: what the caller sees *)

Inductive outcome :=
| Returns (r : option str)   (* a path, or [None] *)
| Raises.                    (* an exception reaches the caller *)

(** The file test may raise. After the image is loaded every path through
    lines 157-383 ends in [return png_path], unless a Pillow or file-system
    call raises. *)
Definition main (d : DivTag) (css save_copy_to : option str)
    (slide_index div_index : option Z) : outcome :=
  match load_image d css with
  | NoImage => Returns None
  | FileTestRaises => Raises
  | Loaded img =>
      if pillow_completes W img d css save_copy_to
      then Returns (Some (png_path slide_index div_index))
      else Raises
  end.

End Stages.
End Render.

(* ===================================================================== *)
(** * The region calculator of the post-processing module *)
(* ===================================================================== *)

Module Region.
Local Open Scope Z_scope.

Inductive direction := Horizontal | Vertical.
Inductive side := Left | Right | Top | Bottom.

(** A region is the tuple [(left, top, width, height)]. *)
Definition rect := (Z * Z * Z * Z)%type.
Definition r_left (r : rect) : Z := let '(l, _, _, _) := r in l.
Definition r_top (r : rect) : Z := let '(_, t, _, _) := r in t.
Definition r_width (r : rect) : Z := let '(_, _, w, _) := r in w.
Definition r_height (r : rect) : Z := let '(_, _, _, h) := r in h.

(** Modelled from the spec: [_calculate_background_region] belongs to the
    post-processing module, whose file is not among the sources (only its
    test is). Section 4.2: the area is cut into [count] equal contiguous
    slices along [direction], of width [w / count] (vertical stripes) or
    height [h / count] (horizontal stripes), the last slice absorbing the
    remainder. *)
Definition slice (area : rect) (index count : Z) (d : direction) : rect :=
  let '(l, t, w, h) := area in
  match d with
  | Horizontal =>
      let step := w / count in
      (l + index * step, t, (if index =? count - 1 then w - index * step else step), h)
  | Vertical =>
      let step := h / count in
      (l, t + index * step, w, (if index =? count - 1 then h - index * step else step))
  end.

(** Modelled from the spec: the split region, section 4.2 and the data
    model: the canvas is divided at [split_pct] percent along the split axis
    and [split_dir] names the side the split region occupies. *)
Definition split_area (canvas_w canvas_h : Z) (split_dir : side) (split_pct : Z) : rect :=
  match split_dir with
  | Left => (0, 0, canvas_w * split_pct / 100, canvas_h)
  | Right => (canvas_w - canvas_w * split_pct / 100, 0, canvas_w * split_pct / 100, canvas_h)
  | Top => (0, 0, canvas_w, canvas_h * split_pct / 100)
  | Bottom => (0, canvas_h - canvas_h * split_pct / 100, canvas_w, canvas_h * split_pct / 100)
  end.

(** The area the [count] backgrounds share: the whole canvas, or the split
    region. *)
Definition layout_area (canvas_w canvas_h : Z) (is_split : bool)
    (split_dir : side) (split_pct : Z) : rect :=
  if is_split then split_area canvas_w canvas_h split_dir split_pct
  else (0, 0, canvas_w, canvas_h).

(** Modelled from the spec: [region] of section 4.2. With a split, the
    backgrounds are laid out inside the split region, as the values of
    [test__calculate_background_region_horizontal_and_split] require (a left
    split at 50 percent of a 1280 wide canvas gives the regions 320 wide at 0
    and at 320). [split_dir] and [split_pct] are read only with a split. *)
Definition region (canvas_w canvas_h index count : Z) (d : direction)
    (is_split : bool) (split_dir : side) (split_pct : Z) : rect :=
  slice (layout_area canvas_w canvas_h is_split split_dir split_pct) index count d.

(** The name under which the test calls it. *)
Definition _calculate_background_region := region.

(** Pixel [(x, y)] lies in a region. *)
Definition in_rect (r : rect) (x y : Z) : Prop :=
  r_left r <= x < r_left r + r_width r /\ r_top r <= y < r_top r + r_height r.

(** The extent of an area along and across a direction. *)
Definition along (d : direction) (r : rect) : Z :=
  match d with Horizontal => r_width r | Vertical => r_height r end.
Definition across (d : direction) (r : rect) : Z :=
  match d with Horizontal => r_height r | Vertical => r_width r end.

(** The regions [regions 0 .. regions (count - 1)] tile an area exactly:
    every pixel of the area lies in one of them and they hold no other pixel
    (no gap), and no pixel lies in two of them (no overlap). *)
Definition tiles (area : rect) (regions : Z -> rect) (count : Z) : Prop :=
  (forall x y,
      in_rect area x y
      <-> exists i, 0 <= i < count /\ in_rect (regions i) x y)
  /\ (forall i j x y,
         0 <= i < count -> 0 <= j < count ->
         in_rect (regions i) x y -> in_rect (regions j) x y -> i = j).

(** Every region has a positive width and a positive height. *)
Definition all_positive (regions : Z -> rect) (count : Z) : Prop :=
  forall i, 0 <= i < count -> 0 < r_width (regions i) /\ 0 < r_height (regions i).

End Region.

(* ===================================================================== *)
(** * The white-rectangle pruning pass of the post-processing module *)
(* ===================================================================== *)

Module Prune.
Local Open Scope Z_scope.

(** What the pass reads of a shape: its size and, when the fill is solid,
    the colour of the fill. [shape_id] tells shapes apart. *)
Record shape := {
  shape_id : Z;
  shape_width : Z;
  shape_height : Z;
  shape_fill : option (Z * Z * Z)
}.

(** A presentation: the slide size and, per slide, the shapes in z-order,
    back-most first. *)
Record presentation := {
  slide_width : Z;
  slide_height : Z;
  slides : list (list shape)
}.

Definition is_white (c : option (Z * Z * Z)) : bool :=
  match c with
  | Some (r, g, b) => (r =? 255) && (g =? 255) && (b =? 255)
  | None => false
  end.

(** Modelled from the spec: [remove_redundant_marp_white_rectangles] belongs
    to the post-processing module, whose file is not among the sources (only
    its tests are). Section 4.6: a candidate covers the full slide width and
    height and has a solid white fill. *)
Definition is_candidate (slide_w slide_h : Z) (s : shape) : bool :=
  (shape_width s =? slide_w) && (shape_height s =? slide_h) && is_white (shape_fill s).

(** Modelled from the spec: every non-matching shape comes after the
    matching ones. *)
Fixpoint candidates_first (m : shape -> bool) (shapes : list shape) : bool :=
  match shapes with
  | [] => true
  | s :: rest =>
      if m s then candidates_first m rest
      else forallb (fun s' => negb (m s')) rest
  end.

(** Modelled from the spec: the candidates are the back-most shapes: they
    are the only shapes of the slide, or every other shape comes after
    them (section 4.6 keeps both conditions). *)
Definition backmost (m : shape -> bool) (shapes : list shape) : bool :=
  forallb m shapes || candidates_first m shapes.

(** Modelled from the spec: the pass on one slide: the shapes that stay and
    the number removed. *)
Definition prune_slide (slide_w slide_h : Z) (shapes : list shape) : list shape * Z :=
  let m := is_candidate slide_w slide_h in
  if (Z.of_nat (List.length (filter m shapes)) =? 3) && backmost m shapes
  then (filter (fun s => negb (m s)) shapes, 3)
  else (shapes, 0).

(** Modelled from the spec: the pass on every slide; it returns the count
    removed. *)
Definition remove_redundant_marp_white_rectangles (prs : presentation)
  : presentation * Z :=
  let done := map (prune_slide (slide_width prs) (slide_height prs)) (slides prs) in
  ({| slide_width := slide_width prs;
      slide_height := slide_height prs;
      slides := map fst done |},
   fold_right Z.add 0 (map snd done)).

(** The firing condition as section 4.6 words it: exactly three shapes of
    the slide are candidates, and they are its three back-most shapes. *)
Definition three_backmost (m : shape -> bool) (shapes : list shape) : Prop :=
  exists c1 c2 c3 rest,
    shapes = c1 :: c2 :: c3 :: rest
    /\ m c1 = true /\ m c2 = true /\ m c3 = true
    /\ forallb (fun s => negb (m s)) rest = true.

End Prune.

(* ===================================================================== *)
(** * main.py: the orchestrator *)
(* ===================================================================== *)

Module Orchestrator.

(** What a call raises: an exception that [except Exception] catches, or
    one that it lets through ([KeyboardInterrupt], [SystemExit]). *)
Inductive raised :=
| Exception
| BaseException.

(** A call returns a value or raises. *)
Inductive result (A : Type) :=
| Returned (a : A)
| Raised (e : raised).
Arguments Returned {A} a.
Arguments Raised {A} e.

Definition bind {A B : Type} (r : result A) (k : A -> result B) : result B :=
  match r with
  | Returned a => k a
  | Raised e => Raised e
  end.

Notation "x <- c ;; k" := (bind c (fun x => k))
  (at level 61, c at next level, right associativity).

Section Pipeline.

Variables Path SlidesData Prs : Type.

(** The helpers imported from the post-processing module and python-pptx.
    A helper works on the package in place: it yields the package as it
    leaves it, and what it raised ([None] when it returned). What a helper
    skips or fails to repair on a single slide or fragment without raising
    is part of the package it leaves. [save] is [prs.save(str(path))]:
    [None] when the file is written. *)
Record Helpers := {
  parse_marp_html : Path -> result SlidesData;
  Presentation : Path -> result Prs;
  process_native_marp_images : Prs -> SlidesData -> Prs * option raised;
  widen_text_shapes : Prs -> Prs * option raised;      (* [extra_width_cm=.7] *)
  process_styled_divs : Prs -> SlidesData -> Path -> bool -> Prs * option raised;
  normalize_font_names : Prs -> Prs * option raised;
  remove_redundant_marp_white_rectangles : Prs -> Prs * option raised;
  save : Prs -> Path -> option raised
}.

Variable H : Helpers.

(** A call outside any [try]: an exception propagates. *)
Definition call (r : Prs * option raised) : result Prs :=
  match snd r with
  | None => Returned (fst r)
  | Some e => Raised e
  end.

(** [try: f(prs) except Exception: logger.debug(...)]: after an exception
    of class [Exception] the run goes on with the package as [f] left it;
    any other exception propagates. *)
Definition try_except (r : Prs * option raised) : result Prs :=
  match snd r with
  | Some BaseException => Raised BaseException
  | _ => Returned (fst r)
  end.

(** What a call that returned has done: [prs.save(str(output_path))] wrote
    this package to this path. *)
Inductive saved := Save (prs : Prs) (output_path : Path).

Definition process_pptx_html (html_path pptx_path output_path : Path)
    (save_rendered_divs run_styled_divs : bool) : result saved :=
  slides_data <- parse_marp_html H html_path ;;
  prs <- Presentation H pptx_path ;;
  prs <- call (process_native_marp_images H prs slides_data) ;;
  prs <- call (widen_text_shapes H prs) ;;
  prs <- (if run_styled_divs
          then call (process_styled_divs H prs slides_data html_path save_rendered_divs)
          else Returned prs) ;;
  prs <- try_except (normalize_font_names H prs) ;;
  prs <- try_except (remove_redundant_marp_white_rectangles H prs) ;;
  match save H prs output_path with
  | None => Returned (Save prs output_path)
  | Some e => Raised e
  end.

(** The package as the two guarded helpers leave it, whether they return
    or raise. *)
Definition after_cleanup (prs : Prs) : Prs :=
  fst (remove_redundant_marp_white_rectangles H (fst (normalize_font_names H prs))).

(** Neither guarded helper raises past its [except Exception]. *)
Definition cleanup_caught (prs : Prs) : Prop :=
  snd (normalize_font_names H prs) <> Some BaseException
  /\ snd (remove_redundant_marp_white_rectangles H (fst (normalize_font_names H prs)))
     <> Some BaseException.

End Pipeline.

Arguments Save {Path Prs} prs output_path.
Arguments parse_marp_html {Path SlidesData Prs} h _.
Arguments Presentation {Path SlidesData Prs} h _.
Arguments process_native_marp_images {Path SlidesData Prs} h _ _.
Arguments widen_text_shapes {Path SlidesData Prs} h _.
Arguments process_styled_divs {Path SlidesData Prs} h _ _ _ _.
Arguments normalize_font_names {Path SlidesData Prs} h _.
Arguments remove_redundant_marp_white_rectangles {Path SlidesData Prs} h _.
Arguments save {Path SlidesData Prs} h _ _.
Arguments process_pptx_html {Path SlidesData Prs} H _ _ _ _ _.
Arguments after_cleanup {Path SlidesData Prs} H _.
Arguments cleanup_caught {Path SlidesData Prs} H _.

End Orchestrator.

(* ===================================================================== *)
(** * src/render_div_as_image.py: the other stages of [main] *)
(* ===================================================================== *)

Module Style.
Import Py Css Render.

(** [s.rstrip(chars)]: the trailing characters that occur in [chars] go. *)
Definition rstrip_chars (chars s : str) : str :=
  rev (drop_while (fun c => existsb (char_eqb c) chars) (rev s)).

(** The builtin [min(a, b)] on floats: [b] only when it is smaller. *)
Definition float_min (a b : float) : float := if PrimFloat.ltb b a then b else a.

(** ** Lines 195-233: the border radius *)

Section BorderRadius.

(** The builtin [float(s)]; [None] when it raises [ValueError]. *)
Variable py_float : str -> option float.

(** The [if val.endswith("%") ... elif val.endswith("px") ...] of both
    blocks, with their [try ... except Exception]: the new
    [(border_radius_pct, border_radius_px)], both [None] before. *)
Definition parse_radius (val : str) : option float * option Z :=
  if endswith val (u "%") then (py_float (rstrip_chars (u "%") val), None)
  else if endswith val (u "px") then
    (None,
     match py_float (rstrip_chars (u "px") val) with
     | Some x => py_int x
     | None => None
     end)
  else (None, None).

(** [border-radius:\s*([^;]+);?] with [re.IGNORECASE], anchored: group 1.
    As in [match_property], the group is the last blank when only blanks
    stand before the [;] or the end. *)
Definition match_border_radius (s : str) : option str :=
  match strip_prefix_ci (u "border-radius:") s with
  | Some r =>
      match take_while (is_not SEMI) (drop_while isspace r) with
      | (_ :: _) as value => Some value
      | [] =>
          match rev (take_while isspace r) with
          | w :: _ => Some [w]
          | [] => None
          end
      end
  | None => None
  end.

(** The inline block ([if div_style: ...]). *)
Definition inline_radius (style : str) : option float * option Z :=
  match style with
  | [] => (None, None)
  | _ :: _ =>
      match re_search match_border_radius style with
      | Some g => parse_radius (strip g)
      | None => (None, None)
      end
  end.

(** The loop over [div_classes]: the first class whose block gives a
    non-empty [border-radius] value decides, and the loop ends there. *)
Fixpoint class_radius (css : option str) (classes : list str)
  : option float * option Z :=
  match classes with
  | [] => (None, None)
  | class_name :: rest =>
      let body := _css_block_for_class css class_name in
      if negb (truthy body) then class_radius css rest
      else
        let val := _extract_css_property body (u "border-radius") in
        if negb (truthy val) then class_radius css rest
        else parse_radius (strip (or_empty val))
  end.

(** [(border_radius_pct, border_radius_px)] after both blocks. *)
Definition border_radius (d : DivTag) (css : option str) : option float * option Z :=
  match inline_radius (div_style d) with
  | (None, None) =>
      if truthy css then class_radius css (div_classes d) else (None, None)
  | r => r
  end.

End BorderRadius.

(** ** Lines 311-327: [object-fit: contain] *)

Record contain_result := {
  contain_w : Z;   (* [sw] *)
  contain_h : Z;   (* [sh] *)
  paste_x : Z;     (* [ox] *)
  paste_y : Z      (* [oy] *)
}.

(** [ox] (and [oy]) from the room [target_w_inner - sw]: a percentage of
    it, else its half; pixel positions are not read here. *)
Definition contain_offset (room : Z) (pos : option float * option Z) : option Z :=
  match fst pos with
  | Some pct => py_int (float_of_int room * (pct / 100))%float
  | None => Some (room / 2)%Z
  end.

(** The image resized to [(sw, sh)] is pasted at [(ox, oy)] on a transparent
    canvas of the target size; [None] when a conversion raises. *)
Definition contain (img_w img_h target_w target_h : Z) (pos : object_position)
  : option contain_result :=
  let scale :=
    float_min (float_of_int target_w / float_of_int img_w)%float
              (float_of_int target_h / float_of_int img_h)%float in
  match py_int (float_of_int img_w * scale)%float,
        py_int (float_of_int img_h * scale)%float with
  | Some w, Some h =>
      let sw := Z.max 1 w in
      let sh := Z.max 1 h in
      match contain_offset (target_w - sw) (pos_x pos),
            contain_offset (target_h - sh) (pos_y pos) with
      | Some ox, Some oy =>
          Some {| contain_w := sw; contain_h := sh; paste_x := ox; paste_y := oy |}
      | _, _ => None
      end
  | _, _ => None
  end.

(** ** Lines 328-334: [object-fit: none], and any other value *)

(** [(left, top)] of the crop box
    [(left, top, left + target_w, top + target_h)] in the unscaled source:
    centred, moved by the pixel position if there is one, then clamped. *)
Definition crop_none (img_w img_h target_w target_h : Z) (pos : object_position)
  : Z * Z :=
  let left := ((img_w - target_w) / 2 + or_zero (snd (pos_x pos)))%Z in
  let top := ((img_h - target_h) / 2 + or_zero (snd (pos_y pos)))%Z in
  (Z.max 0 (Z.min (img_w - target_w) left),
   Z.max 0 (Z.min (img_h - target_h) top)).

End Style.

(* ===================================================================== *)
(** * More concrete runs *)
(* ===================================================================== *)

Module MoreExamples.
Import Py Render.

(** A div with an inline background image, quoted, and a width. *)
Definition div_inline_background : DivTag := {|
  div_class := None;
  div_style_attr := Some (u "background-image: url('bg/pic.png') ; width:100px");
  div_img := None
|}.

(** Two classes: the first has a rule with no size, the second a width. *)
Definition css_two_classes : option str :=
  Some (u ".a { color: red } .b { width: 200px }").

(** A div whose first class has no rule in that stylesheet, and a div with
    the class [a] alone. *)
Definition div_three_classes : DivTag := {|
  div_class := Some [u "plain"; u "a"; u "b"];
  div_style_attr := Some (u "height:50px");
  div_img := None
|}.

Definition div_one_class : DivTag := {|
  div_class := Some [u "a"];
  div_style_attr := Some (u "height:50px");
  div_img := Some {| img_src := Some (u "local.png"); img_style := None |}
|}.

End MoreExamples.

(* ===================================================================== *)
(** * The statements the theorems compare the code with *)
(* ===================================================================== *)

Module CssSpec.
Import Py Css.

(** Nothing, or a character that is no identifier character, stands just
    before (after) the token. *)
Definition left_bounded (pre : str) : Prop :=
  pre = [] \/ exists p c, pre = p ++ [c] /\ is_ident_char c = false.

Definition right_bounded (post : str) : Prop :=
  match post with
  | [] => True
  | c :: _ => is_ident_char c = false
  end.

(** The search from inside a selector ([at_start = false]) needs a
    character before the token; from its start it does not. *)
Definition left_ok (at_start : bool) (pre : str) : Prop :=
  if at_start then left_bounded pre
  else exists p c, pre = p ++ [c] /\ is_ident_char c = false.

(** The token [.<class>] occurs in [s], bounded on both sides. *)
Definition bounded_token (class_name s : str) : Prop :=
  exists pre post,
    s = pre ++ DOT :: class_name ++ post
    /\ left_bounded pre /\ right_bounded post.

(** A class name that does not end in a blank; the class names of a parsed
    [class] attribute hold no blank at all. *)
Definition ends_without_blank (class_name : str) : Prop :=
  match rev class_name with
  | [] => True
  | c :: _ => isspace c = false
  end.

(** A rule names the class: one selector of its list holds the bounded
    token. *)
Definition rule_names (class_name : str) (rule : str * str) : Prop :=
  exists s, In s (sel_list (fst rule)) /\ bounded_token class_name s.

(** The rules of a stylesheet, in order: the matches of the rule pattern. *)
Definition rules_of (css : option str) : list (str * str) :=
  match css with
  | Some text => finditer_rules 0 text
  | None => []
  end.

(** ** The rules and selectors of a stylesheet, stated on the text *)

(** A rule: a selector text that is not empty and holds no opening brace
    and, between braces, a block that is not empty and holds no closing
    brace. *)
Definition is_rule (selectors body : str) : Prop :=
  selectors <> [] /\ ~ In LBRACE selectors /\ body <> [] /\ ~ In RBRACE body.

(** The text starts with a rule. *)
Definition rule_here (s : str) : Prop :=
  exists selectors body post,
    is_rule selectors body /\ s = selectors ++ LBRACE :: body ++ RBRACE :: post.

(** The rules of a text, in order: the rule that starts first, no rule
    starting at an earlier character, and then the rules of the text after
    its closing brace; none when no character starts a rule. *)
Inductive rules_spec : str -> list (str * str) -> Prop :=
| rules_none (text : str) :
    (forall pre s, text = pre ++ s -> ~ rule_here s) ->
    rules_spec text []
| rules_next (pre selectors body post : str) (rules : list (str * str)) :
    is_rule selectors body ->
    (forall pre1 pre2, pre = pre1 ++ pre2 -> pre2 <> [] ->
       ~ rule_here (pre2 ++ selectors ++ LBRACE :: body ++ RBRACE :: post)) ->
    rules_spec post rules ->
    rules_spec (pre ++ selectors ++ LBRACE :: body ++ RBRACE :: post)
               ((selectors, body) :: rules).

(** A missing stylesheet has no rules. *)
Definition stylesheet_rules (css : option str) (rules : list (str * str)) : Prop :=
  match css with
  | Some text => rules_spec text rules
  | None => rules = []
  end.

(** No blank at either end. *)
Definition trimmed (s : str) : Prop :=
  match s with [] => True | c :: _ => isspace c = false end
  /\ match rev s with [] => True | c :: _ => isspace c = false end.

(** A selector of a selector text: what stands between two commas (or an
    end of the text), the blanks around it removed. *)
Definition selector_of (selectors sel : str) : Prop :=
  exists pre ws1 ws2 post,
    selectors = pre ++ (ws1 ++ sel ++ ws2) ++ post
    /\ (pre = [] \/ exists p, pre = p ++ [COMMA])
    /\ (post = [] \/ exists q, post = COMMA :: q)
    /\ ~ In COMMA (ws1 ++ sel ++ ws2)
    /\ forallb isspace ws1 = true /\ forallb isspace ws2 = true
    /\ trimmed sel.

(** One selector of the rule holds the bounded token. *)
Definition rule_selects (class_name : str) (rule : str * str) : Prop :=
  exists sel, selector_of (fst rule) sel /\ bounded_token class_name sel.

(** [sep.join(pieces)]. *)
Fixpoint join (sep : char) (pieces : list str) : str :=
  match pieces with
  | [] => []
  | [p] => p
  | p :: rest => p ++ sep :: join sep rest
  end.

End CssSpec.

(* ===================================================================== *)
(** * Concrete runs *)
(* ===================================================================== *)

Module Examples.
Import Orchestrator.

(** The output paths python-pptx can write on the machine of the runs
    below: there is no directory [/missing]. *)
Definition save_outside_missing (prs : nat) (path : Py.str) : option raised :=
  if Py.startswith path (u "/missing/") then Some Exception else None.

(** A run in which both files parse and open and one helper raises:
    [widen_text_shapes]. The package is a counter of the helpers that have
    worked on it. *)
Definition helpers_widen_raises : Helpers Py.str unit nat := {|
  parse_marp_html := fun _ => Returned tt;
  Presentation := fun _ => Returned 0%nat;
  process_native_marp_images := fun prs _ => (S prs, None);
  widen_text_shapes := fun prs => (prs, Some Exception);
  process_styled_divs := fun prs _ _ _ => (S prs, None);
  normalize_font_names := fun prs => (S prs, None);
  remove_redundant_marp_white_rectangles := fun prs => (S prs, None);
  save := save_outside_missing
|}.

(** A run in which every helper returns. *)
Definition helpers_return : Helpers Py.str unit nat := {|
  parse_marp_html := fun _ => Returned tt;
  Presentation := fun _ => Returned 0%nat;
  process_native_marp_images := fun prs _ => (S prs, None);
  widen_text_shapes := fun prs => (S prs, None);
  process_styled_divs := fun prs _ _ _ => (S prs, None);
  normalize_font_names := fun prs => (S prs, None);
  remove_redundant_marp_white_rectangles := fun prs => (S prs, None);
  save := save_outside_missing
|}.

(** A run in which only the two guarded helpers raise, each after changing
    the package. *)
Definition helpers_guarded_raise : Helpers Py.str unit nat := {|
  parse_marp_html := fun _ => Returned tt;
  Presentation := fun _ => Returned 0%nat;
  process_native_marp_images := fun prs _ => (S prs, None);
  widen_text_shapes := fun prs => (S prs, None);
  process_styled_divs := fun prs _ _ _ => (S prs, None);
  normalize_font_names := fun prs => (S prs, Some Exception);
  remove_redundant_marp_white_rectangles := fun prs => (S prs, Some Exception);
  save := save_outside_missing
|}.

(** A rasterization of the two curved shapes that paints every pixel of a
    mask narrower or lower than 3 pixels and, on a larger mask, every pixel
    but the four corners. *)
Definition curved_paints (c : Render.mask_call) (w h x y : Z) : bool :=
  ((w <? 3) || (h <? 3)
   || negb (((x =? 0) || (x =? w - 1)) && ((y =? 0) || (y =? h - 1))))%Z%bool.

(** A machine on which one local file exists and no URL is valid; Pillow
    completes; only ASCII digits are digits. *)
Definition world_local : Render.World := {|
  Render.Image := unit;
  Render.http_url_valid := fun _ => false;
  Render.is_file := fun s => Some (Py.str_eqb s (u "local.png"));
  Render.path_str := fun s => s;
  Render.download_image := fun _ => None;
  Render.open_image := fun _ => Some tt;
  Render.pillow_completes := fun _ _ _ _ => true;
  Render.nd_value := fun _ => None;
  Render.int_max_str_digits := 4300;
  Render.draw_paints := curved_paints;
  Render.tempdir := u "/tmp";
  Render.getpid := 4242%Z
|}.

(** A second process on the same machine: another process id, the same
    temporary directory. *)
Definition world_other_process : Render.World := {|
  Render.Image := unit;
  Render.http_url_valid := fun _ => false;
  Render.is_file := fun s => Some (Py.str_eqb s (u "local.png"));
  Render.path_str := fun s => s;
  Render.download_image := fun _ => None;
  Render.open_image := fun _ => Some tt;
  Render.pillow_completes := fun _ _ _ _ => true;
  Render.nd_value := fun _ => None;
  Render.int_max_str_digits := 4300;
  Render.draw_paints := curved_paints;
  Render.tempdir := u "/tmp";
  Render.getpid := 4243%Z
|}.



(** A div of class [a] with the inline style [width:100px] around an image
    of source [local.png], with the stylesheet [.a { width: 200px; }]. *)
Definition div_inline_and_class : Render.DivTag := {|
  Render.div_class := Some [u "a"];
  Render.div_style_attr := Some (u "width:100px");
  Render.div_img := Some {| Render.img_src := Some (u "local.png");
                            Render.img_style := None |}
|}.

Definition css_class_width : option Py.str := Some (u ".a { width: 200px; }").

(** A div of class [a] with no image and no style. *)
Definition div_without_source : Render.DivTag := {|
  Render.div_class := Some [u "a"];
  Render.div_style_attr := None;
  Render.div_img := None
|}.

(** A div around an image whose source [missing.png] is no file. *)
Definition div_missing_file : Render.DivTag := {|
  Render.div_class := None;
  Render.div_style_attr := None;
  Render.div_img := Some {| Render.img_src := Some (u "missing.png");
                            Render.img_style := None |}
|}.

(** The shapes of the pruning tests, on the default 9144000 by 6858000
    slide: a full-slide rectangle with a solid white fill, and a small text
    box with no fill. *)
Definition white_rect (id : Z) : Prune.shape := {|
  Prune.shape_id := id;
  Prune.shape_width := 9144000;
  Prune.shape_height := 6858000;
  Prune.shape_fill := Some (255, 255, 255)%Z
|}.

Definition textbox (id : Z) : Prune.shape := {|
  Prune.shape_id := id;
  Prune.shape_width := 720000;
  Prune.shape_height := 360000;
  Prune.shape_fill := None
|}.

End Examples.

(* ===================================================================== *)
(** * Theorems *)
(* ===================================================================== *)

(** ** Python strings *)

Section PyFacts.
Import Py.

Lemma char_eqb_eq (a b : char) : char_eqb a b = true <-> a = b.
Proof. unfold char_eqb. apply N.eqb_eq. Qed.

Lemma char_eqb_refl (a : char) : char_eqb a a = true.
Proof. apply char_eqb_eq. reflexivity. Qed.

Lemma strip_prefix_Some (p s r : str) :
  strip_prefix p s = Some r <-> s = p ++ r.
Proof.
  revert s. induction p as [|x p IH]; intros s; simpl.
  - split; intros E; [inversion E | rewrite E]; reflexivity.
  - destruct s as [|y s]; [split; discriminate|].
    destruct (char_eqb x y) eqn:E.
    + apply char_eqb_eq in E. subst y. rewrite IH.
      split; intros E; [rewrite E | inversion E]; reflexivity.
    + split; [discriminate|]. intros E'. inversion E'. subst y.
      rewrite char_eqb_refl in E. discriminate.
Qed.

Lemma take_drop_while (f : char -> bool) (s : str) :
  take_while f s ++ drop_while f s = s.
Proof.
  induction s as [|c s IH]; simpl; [reflexivity|].
  destruct (f c); simpl; [rewrite IH|]; reflexivity.
Qed.

End PyFacts.

(** ** src/preprocessing.py *)

Section PreprocessingFacts.
Import Py Preprocessing.

Lemma is_invisible_iff (c : char) :
  is_invisible c = true <-> In c [8203; 8204; 8205; 65279; 8206; 8207]%N.
Proof.
  unfold is_invisible, invisible_chars. rewrite existsb_exists. split.
  - intros [x [Hin E]]. apply char_eqb_eq in E. subst x. exact Hin.
  - intros Hin. exists c. split; [exact Hin | apply char_eqb_refl].
Qed.

Lemma re_sub_class_empty (cls : char -> bool) (s : str) :
  re_sub_class cls [] s = filter (fun c => negb (cls c)) s.
Proof.
  induction s as [|c s IH]; simpl; [reflexivity|].
  destruct (cls c); simpl; rewrite IH; reflexivity.
Qed.

Lemma filter_twice {A : Type} (f : A -> bool) (l : list A) :
  filter f (filter f l) = filter f l.
Proof.
  induction l as [|a l IH]; simpl; [reflexivity|].
  destruct (f a) eqn:E; simpl; [rewrite E, IH|]; auto.
Qed.

Lemma filter_all {A : Type} (f : A -> bool) (l : list A) :
  (forall a, In a l -> f a = true) -> filter f l = l.
Proof.
  induction l as [|a l IH]; simpl; intros Hall; [reflexivity|].
  rewrite (Hall a (or_introl eq_refl)), IH; auto.
Qed.

(** C10. [remove_invisible_characters] deletes every occurrence of exactly
    the six code points U+200B, U+200C, U+200D, U+FEFF, U+200E, U+200F and
    keeps every other character, in order: the result is the input filtered
    by "not one of the six". None of the six is left; the function is
    idempotent; and an input with none of the six comes back unchanged. *)
Theorem remove_invisible_characters_spec (content : str) :
  let six := [8203; 8204; 8205; 65279; 8206; 8207]%N in
  remove_invisible_characters content
    = filter (fun c => negb (existsb (N.eqb c) six)) content
  /\ (forall c, In c (remove_invisible_characters content)
                <-> In c content /\ ~ In c six)
  /\ remove_invisible_characters (remove_invisible_characters content)
     = remove_invisible_characters content
  /\ ((forall c, In c content -> ~ In c six)
      -> remove_invisible_characters content = content).
Proof.
  intros six.
  assert (E : remove_invisible_characters content
              = filter (fun c => negb (is_invisible c)) content)
    by apply re_sub_class_empty.
  split; [exact E|]. rewrite E. split; [|split].
  - intros c. rewrite filter_In, negb_true_iff.
    rewrite <- (not_true_iff_false (is_invisible c)), is_invisible_iff.
    reflexivity.
  - unfold remove_invisible_characters. rewrite !re_sub_class_empty.
    apply filter_twice.
  - intros Hnone. apply filter_all. intros c Hc.
    apply negb_true_iff, not_true_iff_false. rewrite is_invisible_iff.
    apply Hnone, Hc.
Qed.

(** The inputs of the unit tests: the six code points between words, and
    plain text. *)
Example remove_invisible_characters_tests :
  remove_invisible_characters
    (u "Hello" ++ [8203%N] ++ u "World" ++ [8204%N] ++ u "Test" ++ [8205%N]
     ++ u "Data" ++ [65279%N] ++ u "More" ++ [8206%N] ++ u "Text" ++ [8207%N])
  = u "HelloWorldTestDataMoreText"
  /\ remove_invisible_characters (u "**01** plain text") = u "**01** plain text".
Proof. split; reflexivity. Qed.

End PreprocessingFacts.

(** ** The stylesheet helpers *)

Section CssFacts.
Import Py Css CssSpec.

Lemma match_dot_class_iff (class_name s : str) :
  match_dot_class class_name s = true
  <-> exists post, s = DOT :: class_name ++ post /\ right_bounded post.
Proof.
  unfold match_dot_class. destruct s as [|c s1].
  - split; [discriminate | intros [post [E _]]; discriminate].
  - rewrite andb_true_iff, char_eqb_eq. split.
    + intros [-> Hm].
      destruct (strip_prefix class_name s1) as [r|] eqn:E; [|discriminate].
      apply strip_prefix_Some in E. exists r. split; [rewrite E; reflexivity|].
      destruct r as [|d r]; simpl; [exact I|].
      apply negb_true_iff. exact Hm.
    + intros [post [E Hb]]. inversion E; subst c s1. split; [reflexivity|].
      assert (P : strip_prefix class_name (class_name ++ post) = Some post)
        by (apply strip_prefix_Some; reflexivity).
      rewrite P. destruct post as [|d r]; [reflexivity|].
      apply negb_true_iff. exact Hb.
Qed.

Lemma left_ok_weaken (b : bool) (pre : str) : left_ok false pre -> left_ok b pre.
Proof. intros Hl. destruct b; simpl; [right|]; exact Hl. Qed.

Lemma search_class_iff (at_start : bool) (class_name s : str) :
  search_class at_start class_name s = true
  <-> exists pre post,
        s = pre ++ DOT :: class_name ++ post
        /\ left_ok at_start pre /\ right_bounded post.
Proof.
  revert at_start. induction s as [|c s IH]; intros b.
  - simpl. rewrite andb_false_r. simpl. split; [discriminate|].
    intros [pre [post [E _]]]. destruct pre; discriminate.
  - cbn [search_class]. rewrite !orb_true_iff, !andb_true_iff. split.
    + intros [[Hb Hm] | [[Hc Hm] | Hs]].
      * apply match_dot_class_iff in Hm. destruct Hm as [post [E Hp]].
        exists [], post. subst b. simpl. rewrite E. repeat split; auto.
        left; reflexivity.
      * apply match_dot_class_iff in Hm. destruct Hm as [post [E Hp]].
        exists [c], post. rewrite E. split; [reflexivity|]. split; [|exact Hp].
        apply left_ok_weaken. exists [], c. split; [reflexivity|].
        apply negb_true_iff. exact Hc.
      * apply IH in Hs. destruct Hs as [pre [post [E [[p [d [Ep Hd]]] Hp]]]].
        exists (c :: pre), post. rewrite E. split; [reflexivity|].
        split; [|exact Hp]. apply left_ok_weaken.
        exists (c :: p), d. rewrite Ep. split; [reflexivity | exact Hd].
    + intros [pre [post [E [Hl Hp]]]]. destruct pre as [|c0 pre].
      * left. destruct b.
        -- split; [reflexivity|]. apply match_dot_class_iff.
           exists post. split; assumption.
        -- destruct Hl as [p [d [Ep _]]]. destruct p; discriminate.
      * simpl in E. inversion E; subst c0 s. right.
        assert (Hlast : exists p d, c :: pre = p ++ [d] /\ is_ident_char d = false).
        { destruct b; [|exact Hl]. destruct Hl as [Hl|Hl]; [discriminate | exact Hl]. }
        destruct Hlast as [p [d [Ep Hd]]].
        destruct pre as [|c1 pre].
        -- left. destruct p as [|? [|? ?]]; try discriminate.
           inversion Ep; subst d. split; [apply negb_true_iff; exact Hd|].
           apply match_dot_class_iff. exists post. split; [reflexivity | exact Hp].
        -- right. apply IH. exists (c1 :: pre), post.
           split; [reflexivity|]. split; [|exact Hp].
           destruct p as [|c' p]; [discriminate|].
           inversion Ep. exists p, d. split; [assumption | exact Hd].
Qed.

Lemma selector_search_iff (class_name s : str) :
  search_class true class_name s = true <-> bounded_token class_name s.
Proof. apply search_class_iff. Qed.

(** Stripping a selector does not change the search, for any class name
    that does not itself end in a blank. *)

Lemma isspace_cases (c : char) :
  isspace c = true ->
  (9 <= c <= 13 \/ 28 <= c <= 32 \/ c = 133 \/ c = 160 \/ c = 5760
   \/ 8192 <= c <= 8202 \/ c = 8232 \/ c = 8233 \/ c = 8239 \/ c = 8287
   \/ c = 12288)%N.
Proof.
  unfold isspace, in_range, char_eqb.
  rewrite !orb_true_iff, !andb_true_iff, !N.leb_le, !N.eqb_eq. tauto.
Qed.

Lemma is_ident_cases (c : char) :
  is_ident_char c = true ->
  (48 <= c <= 57 \/ 65 <= c <= 90 \/ 97 <= c <= 122 \/ c = 95 \/ c = 45)%N.
Proof.
  unfold is_ident_char, in_range, char_eqb.
  rewrite !orb_true_iff, !andb_true_iff, !N.leb_le, !N.eqb_eq. tauto.
Qed.

Lemma isspace_not_ident (c : char) : isspace c = true -> is_ident_char c = false.
Proof.
  intros Hs. apply isspace_cases in Hs.
  destruct (is_ident_char c) eqn:E; [|reflexivity].
  apply is_ident_cases in E. lia.
Qed.

Lemma isspace_not_dot (c : char) : isspace c = true -> char_eqb c DOT = false.
Proof.
  intros Hs. apply isspace_cases in Hs.
  destruct (char_eqb c DOT) eqn:E; [|reflexivity].
  apply char_eqb_eq in E. unfold DOT in E. lia.
Qed.

Lemma search_true_unfold (class_name s : str) :
  search_class true class_name s
  = (match_dot_class class_name s || search_class false class_name s)%bool.
Proof. destruct s; reflexivity. Qed.

Lemma search_class_skip_blank (class_name s : str) (c : char) :
  isspace c = true ->
  search_class true class_name (c :: s) = search_class true class_name s.
Proof.
  intros Hc. rewrite (search_true_unfold class_name s).
  cbn [search_class]. unfold match_dot_class at 1.
  rewrite (isspace_not_dot c Hc), (isspace_not_ident c Hc). reflexivity.
Qed.

Lemma search_class_lstrip (class_name s : str) :
  search_class true class_name (lstrip s) = search_class true class_name s.
Proof.
  unfold lstrip. induction s as [|c s IH]; simpl drop_while; [reflexivity|].
  destruct (isspace c) eqn:Hc; [|reflexivity].
  rewrite IH. symmetry. apply search_class_skip_blank, Hc.
Qed.

Lemma strip_prefix_snoc (class_name s1 : str) (w : char) :
  ends_without_blank class_name -> isspace w = true ->
  strip_prefix class_name (s1 ++ [w])
  = option_map (fun r => r ++ [w]) (strip_prefix class_name s1).
Proof.
  intros Hcls Hw.
  destruct (strip_prefix class_name s1) as [r|] eqn:E; simpl.
  - apply strip_prefix_Some in E. apply strip_prefix_Some. subst s1.
    rewrite app_assoc. reflexivity.
  - destruct (strip_prefix class_name (s1 ++ [w])) as [r'|] eqn:E'; [|reflexivity].
    exfalso. apply strip_prefix_Some in E'.
    destruct r' as [|x r'] using rev_ind.
    + rewrite app_nil_r in E'. unfold ends_without_blank in Hcls.
      rewrite <- E', rev_app_distr in Hcls. simpl in Hcls. congruence.
    + rewrite app_assoc in E'. apply app_inj_tail in E'. destruct E' as [E' _].
      assert (C : strip_prefix class_name s1 = Some r')
        by (apply strip_prefix_Some; exact E').
      congruence.
Qed.

Lemma match_dot_class_snoc (class_name s : str) (w : char) :
  ends_without_blank class_name -> isspace w = true ->
  match_dot_class class_name (s ++ [w]) = match_dot_class class_name s.
Proof.
  intros Hcls Hw. destruct s as [|c s1]; simpl.
  - rewrite (isspace_not_dot w Hw). reflexivity.
  - destruct (char_eqb c DOT); [|reflexivity]. simpl.
    rewrite (strip_prefix_snoc class_name s1 w Hcls Hw).
    destruct (strip_prefix class_name s1) as [[|d r]|]; simpl; try reflexivity.
    rewrite (isspace_not_ident w Hw). reflexivity.
Qed.

Lemma search_class_snoc (b : bool) (class_name s : str) (w : char) :
  ends_without_blank class_name -> isspace w = true ->
  search_class b class_name (s ++ [w]) = search_class b class_name s.
Proof.
  intros Hcls Hw. revert b. induction s as [|c s IH]; intros b.
  - simpl. rewrite (isspace_not_dot w Hw). simpl.
    rewrite !andb_false_r. reflexivity.
  - change ((c :: s) ++ [w]) with (c :: (s ++ [w])). cbn [search_class].
    rewrite IH, (match_dot_class_snoc class_name s w Hcls Hw).
    change (c :: (s ++ [w])) with ((c :: s) ++ [w]).
    rewrite (match_dot_class_snoc class_name (c :: s) w Hcls Hw). reflexivity.
Qed.

Lemma search_class_app_blanks (b : bool) (class_name s ws : str) :
  ends_without_blank class_name -> forallb isspace ws = true ->
  search_class b class_name (s ++ ws) = search_class b class_name s.
Proof.
  intros Hcls. induction ws as [|w ws IH] using rev_ind; intros Hws.
  - rewrite app_nil_r. reflexivity.
  - rewrite forallb_app in Hws. apply andb_true_iff in Hws.
    destruct Hws as [Hws Hw]. simpl in Hw. rewrite andb_true_r in Hw.
    rewrite app_assoc, search_class_snoc by assumption. apply IH, Hws.
Qed.

Lemma take_while_all (f : char -> bool) (s : str) :
  forallb f (take_while f s) = true.
Proof.
  induction s as [|c s IH]; simpl; [reflexivity|].
  destruct (f c) eqn:E; simpl; [rewrite E, IH|]; reflexivity.
Qed.

Lemma search_class_rstrip (b : bool) (class_name s : str) :
  ends_without_blank class_name ->
  search_class b class_name (rstrip s) = search_class b class_name s.
Proof.
  intros Hcls. unfold rstrip.
  rewrite <- (rev_involutive s) at 2.
  rewrite <- (take_drop_while isspace (rev s)) at 2.
  rewrite rev_app_distr. symmetry. apply search_class_app_blanks; [exact Hcls|].
  rewrite forallb_forall. intros x Hx. apply in_rev in Hx.
  pose proof (take_while_all isspace (rev s)) as Hall.
  rewrite forallb_forall in Hall. apply Hall, Hx.
Qed.

Lemma search_class_strip (class_name s : str) :
  ends_without_blank class_name ->
  search_class true class_name (strip s) = search_class true class_name s.
Proof.
  intros Hcls. unfold strip.
  rewrite search_class_rstrip by exact Hcls. apply search_class_lstrip.
Qed.
Lemma rule_names_iff (class_name : str) (rule : str * str) :
  existsb (search_class true class_name) (sel_list (fst rule)) = true
  <-> rule_names class_name rule.
Proof.
  rewrite existsb_exists. unfold rule_names.
  split; intros [s [Hin Hs]]; exists s; (split; [exact Hin|]);
    apply selector_search_iff; exact Hs.
Qed.

Lemma first_block_Some (class_name : str) (rules : list (str * str)) (body : str) :
  first_block class_name rules = Some body
  <-> exists before selectors after,
        rules = before ++ (selectors, body) :: after
        /\ rule_names class_name (selectors, body)
        /\ forall r, In r before -> ~ rule_names class_name r.
Proof.
  induction rules as [|[sel b] rules IH]; simpl.
  - split; [discriminate|]. intros [before [s [after [E _]]]].
    destruct before; discriminate.
  - destruct (existsb (search_class true class_name) (sel_list sel)) eqn:Em.
    + assert (Hn : rule_names class_name (sel, b)) by (apply rule_names_iff; exact Em).
      split.
      * intros E. inversion E; subst b. exists [], sel, rules.
        split; [reflexivity|]. split; [exact Hn|]. intros r [].
      * intros [before [s [after [E [Hr Hnone]]]]].
        destruct before as [|r0 before].
        -- inversion E. reflexivity.
        -- inversion E. subst r0. exfalso.
           apply (Hnone (sel, b)); [left; reflexivity | exact Hn].
    + assert (Hn : ~ rule_names class_name (sel, b)).
      { intros Hr. apply rule_names_iff in Hr. simpl in Hr. congruence. }
      rewrite IH. split.
      * intros [before [s [after [E [Hr Hnone]]]]].
        exists ((sel, b) :: before), s, after. rewrite E.
        split; [reflexivity|]. split; [exact Hr|].
        intros r [<- | Hin]; [exact Hn | apply Hnone, Hin].
      * intros [before [s [after [E [Hr Hnone]]]]].
        destruct before as [|r0 before].
        -- inversion E. subst. contradiction.
        -- inversion E. subst r0. exists before, s, after.
           split; [reflexivity|]. split; [exact Hr|].
           intros r Hin. apply Hnone. right. exact Hin.
Qed.

Lemma first_block_None (class_name : str) (rules : list (str * str)) :
  first_block class_name rules = None
  <-> forall r, In r rules -> ~ rule_names class_name r.
Proof.
  induction rules as [|[sel b] rules IH]; simpl.
  - split; [intros _ r [] | reflexivity].
  - destruct (existsb (search_class true class_name) (sel_list sel)) eqn:Em.
    + split; [discriminate|]. intros Hnone. exfalso.
      apply (Hnone (sel, b)); [left; reflexivity|].
      apply rule_names_iff. exact Em.
    + rewrite IH. split.
      * intros Hnone r [<- | Hin]; [|apply Hnone, Hin].
        intros Hr. apply rule_names_iff in Hr. simpl in Hr. congruence.
      * intros Hnone r Hin. apply Hnone. right. exact Hin.
Qed.

Lemma css_block_first_block (css : option str) (class_name : str) :
  _css_block_for_class css class_name = first_block class_name (rules_of css).
Proof. destruct css as [[|c text]|]; reflexivity. Qed.

Lemma rule_names_unstripped (class_name : str) (rule : str * str) :
  ends_without_blank class_name ->
  (rule_names class_name rule
   <-> exists s, In s (split COMMA (fst rule)) /\ bounded_token class_name s).
Proof.
  intros Hcls. unfold rule_names, sel_list. split.
  - intros [s [Hin Hs]]. apply in_map_iff in Hin. destruct Hin as [s0 [<- Hin]].
    exists s0. split; [exact Hin|]. apply selector_search_iff.
    rewrite <- (search_class_strip class_name s0 Hcls).
    apply selector_search_iff. exact Hs.
  - intros [s0 [Hin Hs]]. exists (strip s0). split; [apply in_map; exact Hin|].
    apply selector_search_iff. rewrite (search_class_strip class_name s0 Hcls).
    apply selector_search_iff. exact Hs.
Qed.

(** Combinators and pseudo-classes are not read; a longer class name is
    not a match. *)
Example css_block_examples :
  _css_block_for_class (Some (u "div > .a:hover , p { x }")) (u "a") = Some (u " x ")
  /\ _css_block_for_class (Some (u ".ab, .a-b, .a_b, x.b { x }")) (u "a") = None
  /\ _css_block_for_class
       (Some (u ".image-wrap { width:100px } .image { object-fit: cover; }"))
       (u "image")
     = Some (u " object-fit: cover; ")
  /\ _css_block_for_class (Some (u ".a { x } .a { y }")) (u "a") = Some (u " x ")
  /\ _css_block_for_class (Some []) (u "a") = None
  /\ _css_block_for_class None (u "a") = None.
Proof. repeat split. Qed.

End CssFacts.

(** ** The region calculator *)

Section RegionFacts.
Import Region.
Local Open Scope Z_scope.

(** One axis: the slices of [[L, L + W)]. *)
Lemma slice1d_cover (L W count x : Z) :
  0 <= W -> 1 <= count ->
  (L <= x < L + W
   <-> exists i, 0 <= i < count
         /\ L + i * (W / count) <= x
              < L + i * (W / count)
                + (if i =? count - 1 then W - i * (W / count) else W / count)).
Proof.
  intros HW Hc.
  assert (Hs : 0 <= W / count) by (apply Z.div_pos; lia).
  assert (Hm : count * (W / count) <= W) by (apply Z.mul_div_le; lia).
  set (step := W / count) in *.
  split.
  - intros Hx.
    destruct (Z_lt_le_dec (x - L) ((count - 1) * step)) as [Hlt|Hge].
    + assert (Hpos : 0 < step) by nia.
      exists ((x - L) / step).
      assert (H1 : step * ((x - L) / step) <= x - L) by (apply Z.mul_div_le; lia).
      assert (H2 : x - L < step * ((x - L) / step) + step).
      { pose proof (Z.mod_pos_bound (x - L) step Hpos).
        pose proof (Z.div_mod (x - L) step). lia. }
      assert (H3 : 0 <= (x - L) / step) by (apply Z.div_pos; lia).
      assert (H4 : (x - L) / step < count - 1) by nia.
      split; [lia|].
      destruct (Z.eqb_spec ((x - L) / step) (count - 1)); [lia|]. nia.
    + exists (count - 1). split; [lia|]. rewrite Z.eqb_refl. lia.
  - intros [i [Hi Hx]].
    destruct (Z.eqb_spec i (count - 1)) as [->|Hne]; [nia|].
    assert (i + 1 <= count - 1) by lia. nia.
Qed.

Lemma slice1d_disjoint (L W count i j x : Z) :
  0 <= W -> 1 <= count -> 0 <= i -> i < j -> j < count ->
  L + i * (W / count) <= x
    < L + i * (W / count)
      + (if i =? count - 1 then W - i * (W / count) else W / count) ->
  L + j * (W / count) <= x -> False.
Proof.
  intros HW Hc Hi Hij Hj Hx Hy.
  assert (Hs : 0 <= W / count) by (apply Z.div_pos; lia).
  destruct (Z.eqb_spec i (count - 1)) as [->|Hne]; [lia|].
  assert (i + 1 <= j) by lia. nia.
Qed.

Lemma slice1d_positive (W count i : Z) :
  1 <= count -> count <= W -> 0 <= i < count ->
  0 < (if i =? count - 1 then W - i * (W / count) else W / count).
Proof.
  intros Hc HW Hi.
  assert (Hs : 0 < W / count) by (apply Z.div_str_pos; lia).
  assert (Hm : count * (W / count) <= W) by (apply Z.mul_div_le; lia).
  destruct (Z.eqb_spec i (count - 1)) as [->|Hne]; [nia | exact Hs].
Qed.

Lemma slice_tiles (area : rect) (count : Z) (d : direction) :
  0 <= r_width area -> 0 <= r_height area -> 1 <= count ->
  tiles area (fun i => slice area i count d) count.
Proof.
  destruct area as [[[l t] w] h]. simpl. intros Hw Hh Hc. split.
  - intros x y. unfold in_rect. destruct d; simpl.
    + rewrite (slice1d_cover l w count x Hw Hc). split.
      * intros [[i [Hi Hx]] Hy]. exists i. auto.
      * intros [i [Hi [Hx Hy]]]. split; [exists i; auto | exact Hy].
    + rewrite (slice1d_cover t h count y Hh Hc). split.
      * intros [Hx [i [Hi Hy]]]. exists i. auto.
      * intros [i [Hi [Hx Hy]]]. split; [exact Hx | exists i; auto].
  - intros i j x y Hi Hj. unfold in_rect.
    destruct d; simpl; intros [Hxi Hyi] [Hxj Hyj].
    + destruct (Z.lt_trichotomy i j) as [Hlt | [Heq | Hgt]]; [|exact Heq|]; exfalso.
      * apply (slice1d_disjoint l w count i j x); try lia.
      * apply (slice1d_disjoint l w count j i x); try lia.
    + destruct (Z.lt_trichotomy i j) as [Hlt | [Heq | Hgt]]; [|exact Heq|]; exfalso.
      * apply (slice1d_disjoint t h count i j y); try lia.
      * apply (slice1d_disjoint t h count j i y); try lia.
Qed.

Lemma slice_positive (area : rect) (count : Z) (d : direction) :
  1 <= count -> count <= along d area -> 0 < across d area ->
  all_positive (fun i => slice area i count d) count.
Proof.
  destruct area as [[[l t] w] h]. intros Hc Ha Hx i Hi.
  destruct d; simpl in *; split; try assumption;
    apply slice1d_positive; assumption.
Qed.

Lemma layout_area_nonneg (w h : Z) (is_split : bool) (sd : side) (sp : Z) :
  0 < w -> 0 < h -> (is_split = true -> 0 <= sp) ->
  0 <= r_width (layout_area w h is_split sd sp)
  /\ 0 <= r_height (layout_area w h is_split sd sp).
Proof.
  intros Hw Hh Hp. destruct is_split; [|simpl; lia].
  specialize (Hp eq_refl).
  assert (0 <= w * sp / 100) by (apply Z.div_pos; nia).
  assert (0 <= h * sp / 100) by (apply Z.div_pos; nia).
  destruct sd; simpl; lia.
Qed.

(** C1, on the model of section 4.2. For a canvas of width [w > 0] and
    height [h > 0], [count >= 1] and either direction, the regions of the
    indices [0 .. count - 1] tile the layout area exactly, with no overlap
    and no gap: without a split the layout area is the whole canvas; with a
    split (of 0 to 100 percent) it is the split region, the strip of
    [split_pct] percent on the side [split_dir]. Every region has a positive
    width and height whenever [count] is at most the extent of the area
    along the direction and the area is not empty across it. The three
    values of the test hold. *)
Theorem region_tiles_layout_area
    (w h count : Z) (d : direction) (is_split : bool) (sd : side) (sp : Z) :
  0 < w -> 0 < h -> 1 <= count -> (is_split = true -> 0 <= sp <= 100) ->
  let area := layout_area w h is_split sd sp in
  let regions := fun i => region w h i count d is_split sd sp in
  (is_split = false -> area = (0, 0, w, h))
  /\ tiles area regions count
  /\ (count <= along d area -> 0 < across d area -> all_positive regions count)
  /\ region 1280 720 0 2 Horizontal false sd sp = (0, 0, 640, 720)
  /\ region 1280 720 1 2 Horizontal false sd sp = (640, 0, 640, 720)
  /\ region 1280 720 0 2 Horizontal true Left 50 = (0, 0, 320, 720).
Proof.
  intros Hw Hh Hc Hp area regions.
  destruct (layout_area_nonneg w h is_split sd sp Hw Hh
              (fun E => proj1 (Hp E))) as [Haw Hah].
  split; [intros ->; reflexivity|].
  split; [apply slice_tiles; assumption|].
  split; [intros Ha Hx; apply slice_positive; assumption|].
  repeat split.
Qed.

(** C1 as the specification states it fails in two places. Without a
    split, [count = 2] on a canvas one pixel wide gives a first region of
    width 0. With the split of the test, pixel (700, 0) of the 1280 by 720
    canvas lies in neither of the two regions, so they do not tile the
    canvas. *)
Lemma region_claim_counterexample :
  ~ all_positive (fun i => region 1 1 i 2 Horizontal false Left 50) 2
  /\ ~ tiles (0, 0, 1280, 720)
         (fun i => region 1280 720 i 2 Horizontal true Left 50) 2.
Proof.
  split.
  - intros Hpos. destruct (Hpos 0 ltac:(lia)) as [Hwidth _].
    vm_compute in Hwidth. discriminate.
  - intros [Hcover _].
    assert (Hin : in_rect (0, 0, 1280, 720) 700 0) by (unfold in_rect; simpl; lia).
    apply Hcover in Hin. destruct Hin as [i [Hi [Hx _]]].
    assert (Ei : i = 0 \/ i = 1) by lia.
    destruct Ei as [-> | ->]; vm_compute in Hx; destruct Hx as [H1 H2];
      try (apply H1; reflexivity); try discriminate.
Qed.

(** The theorem applies to the split layout of the test. *)
Lemma region_tiles_layout_area_witness :
  (0 < 1280 /\ 0 < 720 /\ 1 <= 2 /\ 0 <= 50 <= 100)
  /\ tiles (0, 0, 640, 720)
           (fun i => region 1280 720 i 2 Horizontal true Left 50) 2.
Proof.
  split; [lia|].
  exact (proj1 (proj2 (region_tiles_layout_area 1280 720 2 Horizontal true Left 50
                         ltac:(lia) ltac:(lia) ltac:(lia) ltac:(lia)))).
Defined.

End RegionFacts.

(** ** The white-rectangle pruning pass *)

Section PruneFacts.
Import Prune.
Local Open Scope Z_scope.

Variable m : shape -> bool.

Lemma filter_none (l : list shape) :
  forallb (fun s => negb (m s)) l = true -> filter m l = [].
Proof.
  induction l as [|a l IH]; simpl; [reflexivity|].
  rewrite andb_true_iff, negb_true_iff. intros [-> Hl]. apply IH, Hl.
Qed.

Lemma filter_keep_all (l : list shape) :
  forallb (fun s => negb (m s)) l = true -> filter (fun s => negb (m s)) l = l.
Proof.
  induction l as [|a l IH]; simpl; [reflexivity|].
  rewrite andb_true_iff. intros [-> Hl]. rewrite IH; auto.
Qed.

Lemma forallb_candidates_first (l : list shape) :
  forallb m l = true -> candidates_first m l = true.
Proof.
  induction l as [|a l IH]; simpl; [reflexivity|].
  rewrite andb_true_iff. intros [-> Hl]. apply IH, Hl.
Qed.

Lemma backmost_candidates_first (l : list shape) :
  backmost m l = candidates_first m l.
Proof.
  unfold backmost. destruct (forallb m l) eqn:E; [|reflexivity].
  symmetry. apply forallb_candidates_first, E.
Qed.

(** The candidates come first exactly when the list is a run of candidates
    followed by shapes that are none. *)
Lemma candidates_first_split (l : list shape) :
  candidates_first m l = true ->
  exists front rest,
    l = front ++ rest /\ filter m l = front
    /\ forallb (fun s => negb (m s)) rest = true.
Proof.
  induction l as [|a l IH]; simpl.
  - exists [], []. auto.
  - destruct (m a) eqn:Ea.
    + intros Hl. destruct (IH Hl) as [front [rest [E [Ef Hr]]]].
      exists (a :: front), rest. rewrite Ef. rewrite E at 1. auto.
    + intros Hl. exists [], (a :: l). simpl. rewrite Ea. simpl.
      rewrite filter_none by exact Hl. auto.
Qed.

Lemma fires_iff (l : list shape) :
  (Z.of_nat (List.length (filter m l)) =? 3) && backmost m l = true
  <-> three_backmost m l.
Proof.
  rewrite andb_true_iff, Z.eqb_eq, backmost_candidates_first. split.
  - intros [Hlen Hfirst].
    destruct (candidates_first_split l Hfirst) as [front [rest [E [Ef Hr]]]].
    rewrite Ef in Hlen.
    destruct front as [|c1 [|c2 [|c3 [|c4 front]]]]; simpl in Hlen; try lia.
    exists c1, c2, c3, rest. split; [exact E|].
    assert (Hin : forall c, In c [c1; c2; c3] -> m c = true).
    { intros c Hc. rewrite <- Ef in Hc. apply filter_In in Hc. apply Hc. }
    repeat split; try (apply Hin; simpl; auto). exact Hr.
  - intros [c1 [c2 [c3 [rest [-> [H1 [H2 [H3 Hr]]]]]]]]. simpl.
    rewrite H1, H2, H3. simpl. rewrite filter_none by exact Hr.
    split; [reflexivity|]. destruct rest as [|s rest]; [reflexivity|].
    simpl in *. apply andb_true_iff in Hr. destruct Hr as [Hs Hr].
    apply negb_true_iff in Hs. rewrite Hs. exact Hr.
Qed.

End PruneFacts.

Section PruneSlide.
Import Prune.
Local Open Scope Z_scope.

Lemma prune_slide_fires (sw sh : Z) (c1 c2 c3 : shape) (rest : list shape) :
  let m := is_candidate sw sh in
  m c1 = true -> m c2 = true -> m c3 = true ->
  forallb (fun s => negb (m s)) rest = true ->
  prune_slide sw sh (c1 :: c2 :: c3 :: rest) = (rest, 3).
Proof.
  intros m H1 H2 H3 Hr. unfold prune_slide. fold m.
  assert (F : (Z.of_nat (List.length (filter m (c1 :: c2 :: c3 :: rest))) =? 3)
              && backmost m (c1 :: c2 :: c3 :: rest) = true).
  { apply fires_iff. exists c1, c2, c3, rest. auto. }
  rewrite F. simpl. rewrite H1, H2, H3. simpl.
  rewrite filter_keep_all by exact Hr. reflexivity.
Qed.

Lemma prune_slide_skips (sw sh : Z) (shapes : list shape) :
  ~ three_backmost (is_candidate sw sh) shapes ->
  prune_slide sw sh shapes = (shapes, 0).
Proof.
  intros Hn. unfold prune_slide.
  destruct ((Z.of_nat (List.length (filter (is_candidate sw sh) shapes)) =? 3)
            && backmost (is_candidate sw sh) shapes) eqn:F; [|reflexivity].
  exfalso. apply Hn, fires_iff, F.
Qed.

Lemma prune_slide_again (sw sh : Z) (shapes : list shape) :
  prune_slide sw sh (fst (prune_slide sw sh shapes))
  = (fst (prune_slide sw sh shapes), 0).
Proof.
  unfold prune_slide at 2 3.
  destruct ((Z.of_nat (List.length (filter (is_candidate sw sh) shapes)) =? 3)
            && backmost (is_candidate sw sh) shapes) eqn:F; simpl.
  - apply prune_slide_skips. intros [c1 [c2 [c3 [rest [E [H1 _]]]]]].
    assert (Hin : In c1 (filter (fun s => negb (is_candidate sw sh s)) shapes))
      by (rewrite E; left; reflexivity).
    apply filter_In in Hin. destruct Hin as [_ Hc]. rewrite H1 in Hc. discriminate.
  - apply prune_slide_skips. intros Ht. apply fires_iff in Ht. congruence.
Qed.

Lemma prune_deck_again (sw sh : Z) (sl : list (list shape)) :
  let once := map fst (map (prune_slide sw sh) sl) in
  map fst (map (prune_slide sw sh) once) = once
  /\ fold_right Z.add 0 (map snd (map (prune_slide sw sh) once)) = 0.
Proof.
  induction sl as [|s sl IH]; simpl; [auto|].
  rewrite prune_slide_again. simpl. destruct IH as [E1 E2].
  rewrite E1, E2. auto.
Qed.

(** C6. On every slide the pass removes shapes only when exactly three
    shapes are full-slide solid-white candidates and these three are the
    back-most shapes (alone on the slide or followed by every other shape):
    then it removes exactly those three, leaves the other shapes in order,
    and counts 3. In every other case it removes nothing and counts 0. A
    second run removes nothing more, on a slide and on a whole presentation,
    whose returned count is the sum over its slides. *)
Theorem prune_slide_spec (sw sh : Z) (shapes : list shape) :
  let m := is_candidate sw sh in
  (forall c1 c2 c3 rest,
      shapes = c1 :: c2 :: c3 :: rest ->
      m c1 = true -> m c2 = true -> m c3 = true ->
      forallb (fun s => negb (m s)) rest = true ->
      prune_slide sw sh shapes = (rest, 3))
  /\ (~ three_backmost m shapes -> prune_slide sw sh shapes = (shapes, 0))
  /\ prune_slide sw sh (fst (prune_slide sw sh shapes))
     = (fst (prune_slide sw sh shapes), 0)
  /\ (forall prs,
        remove_redundant_marp_white_rectangles
          (fst (remove_redundant_marp_white_rectangles prs))
        = (fst (remove_redundant_marp_white_rectangles prs), 0))
  /\ (forall w h,
        remove_redundant_marp_white_rectangles
          {| slide_width := w; slide_height := h; slides := [shapes] |}
        = ({| slide_width := w; slide_height := h;
              slides := [fst (prune_slide w h shapes)] |},
           snd (prune_slide w h shapes))).
Proof.
  intros m. split; [|split; [|split; [|split]]].
  - intros c1 c2 c3 rest -> H1 H2 H3 Hr. apply prune_slide_fires; assumption.
  - apply prune_slide_skips.
  - apply prune_slide_again.
  - intros [w h sl]. unfold remove_redundant_marp_white_rectangles. simpl.
    destruct (prune_deck_again w h sl) as [E1 E2]. simpl in E1, E2.
    rewrite E1, E2. reflexivity.
  - intros w h. unfold remove_redundant_marp_white_rectangles. simpl.
    rewrite Z.add_0_r. reflexivity.
Qed.

(** The four slides of the tests: three candidates then a text box; three
    candidates alone; two candidates then a text box; a text box then three
    candidates. *)
Example prune_slide_tests :
  let sw := 9144000 in
  let sh := 6858000 in
  prune_slide sw sh
    [Examples.white_rect 1; Examples.white_rect 2; Examples.white_rect 3;
     Examples.textbox 4]
  = ([Examples.textbox 4], 3)
  /\ prune_slide sw sh
       [Examples.white_rect 1; Examples.white_rect 2; Examples.white_rect 3]
     = ([], 3)
  /\ snd (prune_slide sw sh
            [Examples.white_rect 1; Examples.white_rect 2; Examples.textbox 3])
     = 0
  /\ snd (prune_slide sw sh
            [Examples.textbox 1; Examples.white_rect 2; Examples.white_rect 3;
             Examples.white_rect 4])
     = 0.
Proof. repeat split. Qed.

End PruneSlide.

(** ** The orchestrator *)

Section OrchestratorFacts.
Import Orchestrator.

Variables Path SlidesData Prs : Type.
Variable H : Helpers Path SlidesData Prs.

Lemma call_Returned (r : Prs * option raised) (prs : Prs) :
  call Prs r = Returned prs <-> r = (prs, None).
Proof.
  unfold call. destruct r as [p [e|]]; simpl; split; intros E;
    try discriminate; inversion E; reflexivity.
Qed.

Lemma try_except_Returned (r : Prs * option raised) (prs : Prs) :
  try_except Prs r = Returned prs <-> fst r = prs /\ snd r <> Some BaseException.
Proof.
  unfold try_except. destruct r as [p [[|]|]]; simpl; split.
  - intros [= <-]. split; [reflexivity | discriminate].
  - intros [<- _]. reflexivity.
  - discriminate.
  - intros [_ Hn]. contradiction Hn. reflexivity.
  - intros [= <-]. split; [reflexivity | discriminate].
  - intros [<- _]. reflexivity.
Qed.

(** The run up to the save: the package the repair steps leave. *)
Lemma process_pptx_html_reaches_save
    (html_path pptx_path output_path : Path)
    (save_rendered_divs run_styled_divs : bool)
    (slides_data : SlidesData) (prs0 prs1 prs2 prs3 : Prs) :
  parse_marp_html H html_path = Returned slides_data ->
  Presentation H pptx_path = Returned prs0 ->
  process_native_marp_images H prs0 slides_data = (prs1, None) ->
  widen_text_shapes H prs1 = (prs2, None) ->
  (if run_styled_divs
   then process_styled_divs H prs2 slides_data html_path save_rendered_divs
        = (prs3, None)
   else prs3 = prs2) ->
  cleanup_caught H prs3 ->
  process_pptx_html H html_path pptx_path output_path
                    save_rendered_divs run_styled_divs
  = match save H (after_cleanup H prs3) output_path with
    | None => Returned (Save (after_cleanup H prs3) output_path)
    | Some e => Raised e
    end.
Proof.
  intros Ep Eo E1 E2 E3 [Hn Hr].
  unfold process_pptx_html, after_cleanup, bind.
  rewrite Ep, Eo. apply call_Returned in E1. rewrite E1.
  apply call_Returned in E2. rewrite E2.
  assert (E3' : (if run_styled_divs
                 then call Prs (process_styled_divs H prs2 slides_data html_path
                                  save_rendered_divs)
                 else Returned prs2) = Returned prs3).
  { destruct run_styled_divs; [apply call_Returned; exact E3 | subst prs3; reflexivity]. }
  rewrite E3'.
  rewrite (proj2 (try_except_Returned (normalize_font_names H prs3)
                    (fst (normalize_font_names H prs3))) (conj eq_refl Hn)).
  rewrite (proj2 (try_except_Returned
                    (remove_redundant_marp_white_rectangles H
                       (fst (normalize_font_names H prs3)))
                    _) (conj eq_refl Hr)).
  reflexivity.
Qed.

(** C7, as the code has it. [process_pptx_html] returns, the package saved
    to the output path, exactly when the markup parses, the package opens,
    native image layout, text-box widening and (when enabled) styled-div
    patching return, font normalization and rectangle pruning raise nothing
    that [except Exception] lets through, and [prs.save] itself succeeds;
    the package saved is the one these steps left. An exception of class
    [Exception] in font normalization or in rectangle pruning does not
    prevent the save. When every step is passed and [prs.save] raises, its
    exception leaves [process_pptx_html] and nothing is saved. *)
Theorem process_pptx_html_saves
    (html_path pptx_path output_path : Path)
    (save_rendered_divs run_styled_divs : bool) :
  (forall written,
      process_pptx_html H html_path pptx_path output_path
                        save_rendered_divs run_styled_divs
      = Returned (Save written output_path)
      <-> exists slides_data prs0 prs1 prs2 prs3,
            parse_marp_html H html_path = Returned slides_data
            /\ Presentation H pptx_path = Returned prs0
            /\ process_native_marp_images H prs0 slides_data = (prs1, None)
            /\ widen_text_shapes H prs1 = (prs2, None)
            /\ (if run_styled_divs
                then process_styled_divs H prs2 slides_data html_path save_rendered_divs
                     = (prs3, None)
                else prs3 = prs2)
            /\ cleanup_caught H prs3
            /\ written = after_cleanup H prs3
            /\ save H written output_path = None)
  /\ (forall slides_data prs0 prs1 prs2 prs3 e,
        parse_marp_html H html_path = Returned slides_data ->
        Presentation H pptx_path = Returned prs0 ->
        process_native_marp_images H prs0 slides_data = (prs1, None) ->
        widen_text_shapes H prs1 = (prs2, None) ->
        (if run_styled_divs
         then process_styled_divs H prs2 slides_data html_path save_rendered_divs
              = (prs3, None)
         else prs3 = prs2) ->
        cleanup_caught H prs3 ->
        save H (after_cleanup H prs3) output_path = Some e ->
        process_pptx_html H html_path pptx_path output_path
                          save_rendered_divs run_styled_divs
        = Raised e).
Proof.
  split.
  - intros written. split.
    + unfold process_pptx_html, bind.
      destruct (parse_marp_html H html_path) as [sd|] eqn:Ep; [|discriminate].
      destruct (Presentation H pptx_path) as [p0|] eqn:Eo; [|discriminate].
      destruct (call Prs (process_native_marp_images H p0 sd)) as [p1|] eqn:E1;
        [|discriminate].
      destruct (call Prs (widen_text_shapes H p1)) as [p2|] eqn:E2; [|discriminate].
      destruct (if run_styled_divs
                then call Prs (process_styled_divs H p2 sd html_path save_rendered_divs)
                else Returned p2) as [p3|] eqn:E3; [|discriminate].
      destruct (try_except Prs (normalize_font_names H p3)) as [p4|] eqn:E4;
        [|discriminate].
      destruct (try_except Prs (remove_redundant_marp_white_rectangles H p4))
        as [p5|] eqn:E5; [|discriminate].
      destruct (save H p5 output_path) eqn:Es; [discriminate|].
      intros [= <-].
      apply call_Returned in E1. apply call_Returned in E2.
      apply try_except_Returned in E4. destruct E4 as [<- Hn].
      apply try_except_Returned in E5. destruct E5 as [<- Hr].
      exists sd, p0, p1, p2, p3.
      split; [reflexivity|]. split; [reflexivity|]. split; [exact E1|].
      split; [exact E2|]. split.
      { destruct run_styled_divs; [apply call_Returned; exact E3|].
        inversion E3. reflexivity. }
      split; [split; assumption|]. split; [reflexivity | exact Es].
    + intros [sd [p0 [p1 [p2 [p3 [Ep [Eo [E1 [E2 [E3 [Hc [-> Es]]]]]]]]]]]].
      rewrite (process_pptx_html_reaches_save html_path pptx_path output_path
                 save_rendered_divs run_styled_divs sd p0 p1 p2 p3 Ep Eo E1 E2 E3 Hc).
      rewrite Es. reflexivity.
  - intros sd p0 p1 p2 p3 e Ep Eo E1 E2 E3 Hc Es.
    rewrite (process_pptx_html_reaches_save html_path pptx_path output_path
               save_rendered_divs run_styled_divs sd p0 p1 p2 p3 Ep Eo E1 E2 E3 Hc).
    rewrite Es. reflexivity.
Qed.

End OrchestratorFacts.

Section OrchestratorRuns.
Import Orchestrator Examples.

(** C7 as the specification states it fails: the markup parses, the package
    opens and every repair step returns; written to [out.pptx] the package
    is saved, but for an output path in a directory that does not exist
    [prs.save] raises, the exception leaves [process_pptx_html], and no
    package is saved. *)
Lemma process_pptx_html_counterexample :
  parse_marp_html helpers_return (u "deck.html") = Returned tt
  /\ Presentation helpers_return (u "raw.pptx") = Returned 0%nat
  /\ process_pptx_html helpers_return (u "deck.html") (u "raw.pptx") (u "out.pptx")
       false true
     = Returned (Save 5%nat (u "out.pptx"))
  /\ process_pptx_html helpers_return (u "deck.html") (u "raw.pptx")
       (u "/missing/out.pptx") false true
     = Raised Exception
  /\ forall written,
       process_pptx_html helpers_return (u "deck.html") (u "raw.pptx")
         (u "/missing/out.pptx") false true
       <> Returned (Save written (u "/missing/out.pptx")).
Proof.
  split; [reflexivity|]. split; [reflexivity|].
  split; [vm_compute; reflexivity|].
  assert (E : process_pptx_html helpers_return (u "deck.html") (u "raw.pptx")
                (u "/missing/out.pptx") false true = Raised Exception)
    by (vm_compute; reflexivity).
  split; [exact E|]. intros written. rewrite E. discriminate.
Qed.

(** Both guarded helpers raise, and the package they left is saved; an
    exception in an unguarded helper leaves the run before the save. *)
Example process_pptx_html_guarded_run :
  process_pptx_html helpers_guarded_raise (u "deck.html") (u "raw.pptx")
    (u "out.pptx") false true
  = Returned (Save 5%nat (u "out.pptx"))
  /\ process_pptx_html helpers_widen_raises (u "deck.html") (u "raw.pptx")
       (u "out.pptx") false true
     = Raised Exception.
Proof. split; vm_compute; reflexivity. Qed.

End OrchestratorRuns.

(** ** The rasterizer *)

Section RenderFacts.
Import Py Css Render.
Local Open Scope Z_scope.

Variable W : World.

Lemma main_None_load (d : DivTag) (css copy : option str) (si di : option Z) :
  main W d css copy si di = Returns None <-> load_image W d css = NoImage W.
Proof.
  unfold main. destruct (load_image W d css) as [img| |].
  - destruct (pillow_completes W img d css copy); split; discriminate.
  - split; reflexivity.
  - split; discriminate.
Qed.

(** Nothing names an image: no [img] with a [src], no inline
    [background-image], and no class rule with one. *)
Lemma src_str_unresolved (d : DivTag) (css : option str) :
  (forall img, div_img d = Some img -> img_src img = None) ->
  re_search match_inline_bg (div_style d) = None ->
  class_background css (div_classes d) = [] ->
  src_str d css = [].
Proof.
  intros Himg Hinline Hclass. unfold src_str.
  destruct (div_img d) as [[[src|] st]|] eqn:E.
  - specialize (Himg _ eq_refl). discriminate.
  - rewrite Hinline, Hclass. destruct (truthy css); reflexivity.
  - rewrite Hinline, Hclass. destruct (truthy css); reflexivity.
Qed.

(** When [main] returns [None]: the source string is empty, or it is no
    valid HTTP(S) URL and the file test says it is no file, or the download
    or the opening of the image fails. *)
Lemma main_returns_None_iff
    (d : DivTag) (css copy : option str) (si di : option Z) :
  let src := src_str d css in
  (main W d css copy si di = Returns None
   <-> src = []
       \/ (http_url_valid W src = false /\ is_file W src = Some false)
       \/ (http_url_valid W src = true /\ download_image W src = None)
       \/ (http_url_valid W src = false /\ is_file W src = Some true
           /\ open_image W (path_str W src) = None))
  /\ ((forall img, div_img d = Some img -> img_src img = None) ->
      re_search match_inline_bg (div_style d) = None ->
      class_background css (div_classes d) = [] ->
      main W d css copy si di = Returns None).
Proof.
  intros src. assert (Hiff :
    main W d css copy si di = Returns None
    <-> src = []
        \/ (http_url_valid W src = false /\ is_file W src = Some false)
        \/ (http_url_valid W src = true /\ download_image W src = None)
        \/ (http_url_valid W src = false /\ is_file W src = Some true
            /\ open_image W (path_str W src) = None)).
  { rewrite main_None_load. unfold load_image. fold src.
    destruct src as [|c src']; [split; auto|].
    destruct (http_url_valid W (c :: src')) eqn:Eu.
    - destruct (download_image W (c :: src')) as [img|] eqn:Ed.
      + split; [discriminate|].
        intros [E | [[E _] | [[_ E] | [E _]]]]; discriminate.
      + split; [intros _; right; right; left; auto | reflexivity].
    - destruct (is_file W (c :: src')) as [[|]|] eqn:Ef.
      + destruct (open_image W (path_str W (c :: src'))) as [img|] eqn:Eo.
        * split; [discriminate|].
          intros [E | [[_ E] | [[E _] | [_ [_ E]]]]]; discriminate.
        * split; [intros _; right; right; right; auto | reflexivity].
      + split; [intros _; right; left; auto | reflexivity].
      + split; [discriminate|].
        intros [E | [[_ E] | [[E _] | [_ [E _]]]]]; discriminate. }
  split; [exact Hiff|].
  intros Himg Hinline Hclass. apply Hiff. left.
  apply src_str_unresolved; assumption.
Qed.


End RenderFacts.

(** ** The name of the bitmap *)

Section PathFacts.
Import Py Css Render.
Local Open Scope Z_scope.

Lemma of_string_inj (a b : string) : of_string a = of_string b -> a = b.
Proof.
  unfold of_string. intros E.
  rewrite <- (string_of_list_ascii_of_string a), <- (string_of_list_ascii_of_string b).
  f_equal. revert E.
  generalize (list_ascii_of_string a) (list_ascii_of_string b).
  intros l. induction l as [|x l IH]; intros [|y l']; simpl; intros E;
    try discriminate; [reflexivity|].
  inversion E as [[Ex El]]. f_equal; [|apply IH, El].
  rewrite <- (ascii_N_embedding x), <- (ascii_N_embedding y), Ex. reflexivity.
Qed.

Lemma of_string_app (a b : string) :
  of_string (a ++ b)%string = of_string a ++ of_string b.
Proof.
  unfold of_string. induction a as [|c a IH]; simpl; [reflexivity|].
  f_equal. exact IH.
Qed.

Lemma str_of_int_inj (a b : Z) : str_of_int a = str_of_int b -> a = b.
Proof.
  unfold str_of_int. intros E. apply of_string_inj in E.
  apply (f_equal NilEmpty.int_of_string) in E. rewrite !NilEmpty.isi in E.
  inversion E as [E']. rewrite <- (DecimalZ.of_to a), <- (DecimalZ.of_to b), E'.
  reflexivity.
Qed.

Lemma string_of_uint_digits (d : Decimal.uint) :
  Forall digit_or_sign (of_string (NilEmpty.string_of_uint d)).
Proof.
  induction d; simpl; constructor; try exact IHd;
    right; vm_compute; split; discriminate.
Qed.

Lemma str_of_int_digits (n : Z) : Forall digit_or_sign (str_of_int n).
Proof.
  unfold str_of_int. destruct (Z.to_int n) as [d|d]; simpl.
  - apply string_of_uint_digits.
  - constructor; [left; reflexivity | apply string_of_uint_digits].
Qed.

(** Cutting at the first underscore is unambiguous. *)
Lemma app_sep_inj (a a' b b' : str) :
  Forall digit_or_sign a -> Forall digit_or_sign a' ->
  a ++ 95%N :: b = a' ++ 95%N :: b' -> a = a' /\ b = b'.
Proof.
  assert (Hsep : ~ digit_or_sign 95%N).
  { intros [Hc|Hc]; [discriminate | lia]. }
  intros Ha. revert a'. induction Ha as [|x a Hx Ha IH]; intros a' Ha' E.
  - destruct Ha' as [|y a' Hy Ha']; simpl in E.
    + injection E as E. auto.
    + injection E as Ey _. subst y. contradiction.
  - destruct Ha' as [|y a' Hy Ha']; simpl in E.
    + injection E as Ex _. subst x. contradiction.
    + injection E as Exy El. destruct (IH a' Ha' El) as [E1 E2].
      subst. auto.
Qed.

Lemma png_name_inj (W : World) (si di si' di' : option Z) :
  png_name W si di = png_name W si' di' ->
  or_zero si = or_zero si' /\ or_zero di = or_zero di'.
Proof.
  unfold png_name. intros E.
  apply app_inv_head in E. apply app_inv_head in E. apply app_inv_head in E.
  change (u "_") with [95%N] in E. simpl in E.
  apply app_sep_inj in E; try apply str_of_int_digits.
  destruct E as [E1 E2]. apply str_of_int_inj in E1.
  apply app_inv_tail in E2. apply str_of_int_inj in E2. auto.
Qed.

Lemma os_path_join_inj (a b b' : str) :
  startswith b (u "/") = false -> startswith b' (u "/") = false ->
  os_path_join a b = os_path_join a b' -> b = b'.
Proof.
  unfold os_path_join. intros -> ->. destruct a as [|c a]; [auto|].
  destruct (endswith (c :: a) (u "/")); intros E.
  - apply app_inv_head in E. exact E.
  - apply app_inv_head in E. apply app_inv_head in E. exact E.
Qed.

(** C9, as the code has it. Within one process (one temporary directory, one
    process id) two invocations write to the same path exactly when their
    slide indices agree and their fragment indices agree, a missing index
    counting as 0. So any two pairs of indices that are both given and
    differ get distinct paths. *)
Theorem png_path_distinct (W : World) (si di si' di' : option Z) :
  (png_path W si di = png_path W si' di'
   <-> or_zero si = or_zero si' /\ or_zero di = or_zero di')
  /\ (forall a b a' b' : Z,
        (a, b) <> (a', b') ->
        png_path W (Some a) (Some b) <> png_path W (Some a') (Some b')).
Proof.
  assert (Hinj : forall s d s' d',
             png_path W s d = png_path W s' d' ->
             or_zero s = or_zero s' /\ or_zero d = or_zero d').
  { intros s d s' d' E. unfold png_path in E.
    apply os_path_join_inj in E; [apply png_name_inj in E; exact E | |];
      reflexivity. }
  split.
  - split; [apply Hinj|]. intros [E1 E2].
    unfold png_path, png_name. rewrite E1, E2. reflexivity.
  - intros a b a' b' Hne E. apply Hinj in E. simpl in E.
    destruct E as [-> ->]. apply Hne. reflexivity.
Qed.

End PathFacts.

Section RenderRuns.
Import Py Render Examples.

(** Two runs that end in [None]: nothing names an image; the source is no
    URL and no file. One run that ends in a path. *)
Example main_runs :
  main world_local div_without_source None None (Some 0%Z) (Some 0%Z) = Returns None
  /\ main world_local div_missing_file None None (Some 0%Z) (Some 0%Z) = Returns None
  /\ main world_local div_inline_and_class css_class_width None (Some 1%Z) (Some 2%Z)
     = Returns (Some (u "/tmp/div_render_pillow_4242_1_2.png")).
Proof. repeat split. Qed.


End RenderRuns.

Section PathRuns.
Import Py Render Examples.

(** C9 as the specification states it fails: the pairs [(None, 0)] and
    [(0, 0)] differ and get the same path, since a missing index is written
    as 0. *)
Lemma png_path_counterexample :
  (None, Some 0%Z) <> (Some 0%Z, Some 0%Z)
  /\ png_path world_local None (Some 0%Z) = png_path world_local (Some 0%Z) (Some 0%Z)
  /\ png_path world_local None (Some 0%Z) = u "/tmp/div_render_pillow_4242_0_0.png".
Proof. split; [discriminate | split; reflexivity]. Qed.

End PathRuns.

(** ** The target size, the crop window and the mask *)

Section SizeFacts.
Import Py Css Render Examples.
Local Open Scope Z_scope.

(** C3, where the code departs from it. With an inline pixel width of 100
    and a matching class rule of width 200, [main] takes the width of the
    class rule: the loop over the classes runs after the inline value is
    read and overwrites it. The height, given nowhere, is 400. *)
Theorem target_size_class_overrides_inline (W : World) :
  re_search (match_px W (u "width:")) (div_style div_inline_and_class)
  = Some (Some 100)
  /\ _extract_css_property (_css_block_for_class css_class_width (u "a")) (u "width")
     = Some (u "200px")
  /\ target_size W div_inline_and_class css_class_width = (200, 400).
Proof. repeat split. Qed.

(** In general: the first class with a rule block decides. Its pixel
    width and height, where given, replace whatever the inline style gave. *)
Lemma target_size_first_class_block (W : World) (d : DivTag) (css : option str)
    (class_name : str) (rest : list str) :
  truthy css = true ->
  div_classes d = class_name :: rest ->
  truthy (_css_block_for_class css class_name) = true ->
  let body := _css_block_for_class css class_name in
  let inline_w := inline_px W (u "width:") (div_style d) in
  let inline_h := inline_px W (u "height:") (div_style d) in
  forall w h,
    class_px W (_extract_css_property body (u "width")) inline_w = Some w ->
    class_px W (_extract_css_property body (u "height")) inline_h = Some h ->
    target_size W d css = (w, h).
Proof.
  intros Hcss Hcls Hbody body inline_w inline_h w h Ew Eh.
  unfold target_size. rewrite Hcss, Hcls.
  cbn [class_size]. rewrite Hbody. cbn [negb fst snd].
  fold body inline_w inline_h. rewrite Ew, Eh. reflexivity.
Qed.

(** What does hold of the target size: with no stylesheet the inline pixel
    values decide, each defaulting to 400. *)
Lemma target_size_no_css (W : World) (d : DivTag) :
  target_size W d None
  = (inline_px W (u "width:") (div_style d),
     inline_px W (u "height:") (div_style d)).
Proof. reflexivity. Qed.

Example target_size_default (W : World) :
  target_size W div_without_source None = (400, 400).
Proof. reflexivity. Qed.

(** The crop window of [cover] lies inside the scaled image whenever the
    scaled image is at least as large as the target. *)
Lemma cover_window_inside (img_w img_h tw th : Z) (pos : object_position)
    (r : cover_result) :
  cover img_w img_h tw th pos = Some r ->
  tw <= scaled_w r -> th <= scaled_h r ->
  0 <= crop_left r /\ crop_left r + tw <= scaled_w r
  /\ 0 <= crop_top r /\ crop_top r + th <= scaled_h r.
Proof.
  unfold cover.
  destruct (py_int _) as [w|]; [|discriminate].
  destruct (py_int _) as [h|]; [|discriminate].
  destruct (cover_offset _ _) as [ox|]; [|discriminate].
  destruct (cover_offset _ _) as [oy|]; [|discriminate].
  intros E. inversion E; subst r; clear E. simpl. lia.
Qed.

(** C2, where the code departs from it. A 1225 by 1225 source against the
    default 400 by 400 target: the scale is [400 / 1225] in binary64, the
    product [1225 * scale] falls just short of 400 and [int] truncates it to
    399. The offset is clamped to 0, and the crop window
    [(0, 0, 400, 400)] reaches one pixel past the 399 by 399 scaled image on
    the right and at the bottom. The run of the test, a 200 by 100 source
    with [object-position: 100% 50%] against 100 by 100, crops the right
    half [(100, 0, 200, 100)]. *)
Theorem cover_window_leaves_scaled_image :
  (exists r,
      cover 1225 1225 400 400 PosDefault = Some r
      /\ scaled_w r = 399 /\ scaled_h r = 399
      /\ crop_left r = 0 /\ crop_top r = 0
      /\ scaled_w r < crop_left r + 400
      /\ scaled_h r < crop_top r + 400)
  /\ cover 200 100 100 100 (PosPct 100 50)
     = Some {| scaled_w := 200; scaled_h := 100; crop_left := 100; crop_top := 0 |}.
Proof.
  split.
  - exists {| scaled_w := 399; scaled_h := 399; crop_left := 0; crop_top := 0 |}.
    split; [vm_compute; reflexivity|]. simpl. lia.
  - vm_compute. reflexivity.
Qed.

End SizeFacts.

Section MaskFacts.
Import Render.
Local Open Scope Z_scope.

Variable W : World.

Lemma mask_alpha_values (c : mask_call) (w h x y : Z) :
  mask_alpha W c w h x y = 255 \/ mask_alpha W c w h x y = 0.
Proof. unfold mask_alpha. destruct (_ && _)%bool; auto. Qed.




End MaskFacts.

(* ===================================================================== *)
(** * Further properties of the code *)
(* ===================================================================== *)

(** ** Runs of characters *)

Section RunFacts.
Import Py.

Variable f : char -> bool.

Lemma take_while_forallb (s : str) : forallb f (take_while f s) = true.
Proof.
  induction s as [|c s IH]; simpl; [reflexivity|].
  destruct (f c) eqn:E; simpl; [rewrite E, IH|]; reflexivity.
Qed.

Lemma drop_while_head (s r : str) (c : char) :
  drop_while f s = c :: r -> f c = false.
Proof.
  induction s as [|x s IH]; simpl; [discriminate|].
  destruct (f x) eqn:E; [exact IH|]. intros Ex. inversion Ex; subst. exact E.
Qed.

Lemma drop_while_app_all (ws x : str) :
  forallb f ws = true -> drop_while f (ws ++ x) = drop_while f x.
Proof.
  induction ws as [|w ws IH]; simpl; [reflexivity|].
  rewrite andb_true_iff. intros [-> Hws]. apply IH, Hws.
Qed.

Lemma take_while_app_all (ws x : str) :
  forallb f ws = true -> take_while f (ws ++ x) = ws ++ take_while f x.
Proof.
  induction ws as [|w ws IH]; simpl; [reflexivity|].
  rewrite andb_true_iff. intros [-> Hws]. rewrite IH by exact Hws. reflexivity.
Qed.

Lemma drop_while_stop (x : str) :
  match x with [] => True | c :: _ => f c = false end -> drop_while f x = x.
Proof. destruct x as [|c x]; simpl; [reflexivity|]. intros ->. reflexivity. Qed.

Lemma take_while_stop (x : str) :
  match x with [] => True | c :: _ => f c = false end -> take_while f x = [].
Proof. destruct x as [|c x]; simpl; [reflexivity|]. intros ->. reflexivity. Qed.

End RunFacts.

Section SearchFacts.
Import Py Css.

Lemma re_search_Some {A : Type} (m : str -> option A) (s : str) (a : A) :
  re_search m s = Some a -> exists pre rest, s = pre ++ rest /\ m rest = Some a.
Proof.
  induction s as [|c s IH]; simpl.
  - destruct (m []) eqn:E; [|discriminate]. intros Ea. inversion Ea; subst.
    exists [], []. auto.
  - destruct (m (c :: s)) eqn:E.
    + intros Ea. inversion Ea; subst. exists [], (c :: s). auto.
    + intros Hs. destruct (IH Hs) as [pre [rest [-> Hm]]].
      exists (c :: pre), rest. auto.
Qed.

Lemma re_search_here {A : Type} (m : str -> option A) (s : str) (a : A) :
  m s = Some a -> re_search m s = Some a.
Proof. intros E. destruct s; simpl; rewrite E; reflexivity. Qed.

Lemma is_not_true (x c : char) : is_not x c = true <-> c <> x.
Proof.
  unfold is_not. rewrite negb_true_iff. split.
  - intros E Ec. subst c. rewrite char_eqb_refl in E. discriminate.
  - intros Hne. destruct (char_eqb c x) eqn:E; [|reflexivity].
    apply char_eqb_eq in E. contradiction.
Qed.

Lemma is_not_false (x c : char) : is_not x c = false -> c = x.
Proof.
  unfold is_not. rewrite negb_false_iff. apply char_eqb_eq.
Qed.

Lemma forallb_is_not (x : char) (s : str) :
  forallb (is_not x) s = true -> ~ In x s.
Proof.
  rewrite forallb_forall. intros Hall Hin.
  apply Hall, is_not_true in Hin. contradiction.
Qed.

End SearchFacts.

(** ** The rules a stylesheet is cut into *)

Section RuleFacts.
Import Py Css CssSpec.

Lemma match_rule_Some (s selectors body : str) :
  match_rule s = Some (selectors, body) ->
  selectors <> [] /\ body <> []
  /\ ~ In LBRACE selectors /\ ~ In RBRACE body
  /\ exists rest, s = selectors ++ LBRACE :: body ++ RBRACE :: rest.
Proof.
  unfold match_rule.
  pose proof (take_drop_while (is_not LBRACE) s) as Es.
  pose proof (take_while_forallb (is_not LBRACE) s) as Hs.
  destruct (take_while (is_not LBRACE) s) as [|c0 sel]; [discriminate|].
  destruct (drop_while (is_not LBRACE) s) as [|b rest] eqn:Ed; [discriminate|].
  apply drop_while_head, is_not_false in Ed. subst b.
  pose proof (take_drop_while (is_not RBRACE) rest) as Er.
  pose proof (take_while_forallb (is_not RBRACE) rest) as Hr.
  destruct (take_while (is_not RBRACE) rest) as [|c1 bd]; [discriminate|].
  destruct (drop_while (is_not RBRACE) rest) as [|b rest'] eqn:Ed'; [discriminate|].
  apply drop_while_head, is_not_false in Ed'. subst b.
  intros E. inversion E; subst selectors body.
  split; [discriminate|]. split; [discriminate|].
  split; [apply forallb_is_not, Hs|]. split; [apply forallb_is_not, Hr|].
  exists rest'. rewrite <- Es, <- Er. reflexivity.
Qed.

Lemma finditer_rules_In (skip : nat) (s selectors body : str) :
  In (selectors, body) (finditer_rules skip s) ->
  selectors <> [] /\ body <> []
  /\ ~ In LBRACE selectors /\ ~ In RBRACE body
  /\ exists pre post, s = pre ++ selectors ++ LBRACE :: body ++ RBRACE :: post.
Proof.
  revert skip. induction s as [|c s IH]; intros skip; simpl; [intros []|].
  assert (Hlift : forall k, In (selectors, body) (finditer_rules k s) ->
                            selectors <> [] /\ body <> []
                            /\ ~ In LBRACE selectors /\ ~ In RBRACE body
                            /\ exists pre post,
                                 c :: s = pre ++ selectors ++ LBRACE :: body ++ RBRACE :: post).
  { intros k Hin. destruct (IH k Hin) as [H1 [H2 [H3 [H4 [pre [post E]]]]]].
    repeat (split; [assumption|]). exists (c :: pre), post. rewrite E. reflexivity. }
  destruct skip as [|k]; [|apply Hlift].
  destruct (match_rule (c :: s)) as [[sel bd]|] eqn:Em; [|apply Hlift].
  intros [E | Hin]; [|apply (Hlift _ Hin)].
  inversion E; subst sel bd.
  destruct (match_rule_Some _ _ _ Em) as [H1 [H2 [H3 [H4 [rest Er]]]]].
  repeat (split; [assumption|]). exists [], rest. exact Er.
Qed.

(** X1. A block returned by [_css_block_for_class] is never empty, holds no
    closing brace, and is the text between the braces of a rule of the
    stylesheet whose selector text is not empty and holds no opening brace.
    So the callers' test [if not body] only ever skips a class with no
    rule. *)
Theorem css_block_shape (css : option str) (class_name body : str) :
  _css_block_for_class css class_name = Some body ->
  body <> [] /\ ~ In RBRACE body /\ truthy (Some body) = true
  /\ exists text pre selectors post,
       css = Some text
       /\ text = pre ++ selectors ++ LBRACE :: body ++ RBRACE :: post
       /\ selectors <> [] /\ ~ In LBRACE selectors.
Proof.
  rewrite css_block_first_block. intros E.
  apply first_block_Some in E.
  destruct E as [before [sel [after [Er _]]]].
  assert (Hin : In (sel, body) (rules_of css)) by (rewrite Er; apply in_elt).
  destruct css as [text|]; [|destruct Hin]. simpl in Hin.
  destruct (finditer_rules_In _ _ _ _ Hin) as [H1 [H2 [H3 [H4 [pre [post E]]]]]].
  split; [exact H2|]. split; [exact H4|].
  split; [destruct body; [contradiction | reflexivity]|].
  exists text, pre, sel, post. auto.
Qed.

Lemma css_block_shape_witness :
  _css_block_for_class (Some (u "p, .a { x }")) (u "a") = Some (u " x ")
  /\ u " x " <> [] /\ ~ In RBRACE (u " x ").
Proof.
  split; [reflexivity|].
  pose proof (css_block_shape (Some (u "p, .a { x }")) (u "a") (u " x ") eq_refl)
    as [H1 [H2 _]].
  split; assumption.
Defined.

End RuleFacts.

(** ** Stripping *)

Section StripShape.
Import Py.

Lemma rstrip_decompose (s : str) :
  exists ws, s = rstrip s ++ ws /\ forallb isspace ws = true.
Proof.
  unfold rstrip. exists (rev (take_while isspace (rev s))). split.
  - rewrite <- rev_app_distr, take_drop_while, rev_involutive. reflexivity.
  - rewrite forallb_forall. intros x Hx. apply in_rev in Hx.
    pose proof (take_while_forallb isspace (rev s)) as Hall.
    rewrite forallb_forall in Hall. apply Hall, Hx.
Qed.

Lemma lstrip_fixed (s : str) :
  match s with [] => True | c :: _ => isspace c = false end -> lstrip s = s.
Proof. apply drop_while_stop. Qed.

Lemma rstrip_fixed (s : str) :
  match rev s with [] => True | c :: _ => isspace c = false end -> rstrip s = s.
Proof.
  intros Hs. unfold rstrip. rewrite drop_while_stop by exact Hs.
  apply rev_involutive.
Qed.

Lemma lstrip_head (s : str) :
  match lstrip s with [] => True | c :: _ => isspace c = false end.
Proof.
  unfold lstrip. destruct (drop_while isspace s) as [|c r] eqn:E; [exact I|].
  apply (drop_while_head isspace s r c E).
Qed.

Lemma rstrip_last (s : str) :
  match rev (rstrip s) with [] => True | c :: _ => isspace c = false end.
Proof.
  unfold rstrip. rewrite rev_involutive.
  destruct (drop_while isspace (rev s)) as [|c r] eqn:E; [exact I|].
  apply (drop_while_head isspace (rev s) r c E).
Qed.

Lemma rstrip_keeps_head (s : str) :
  match s with [] => True | c :: _ => isspace c = false end ->
  match rstrip s with [] => True | c :: _ => isspace c = false end.
Proof.
  intros Hs. destruct (rstrip_decompose s) as [ws [E _]].
  destruct (rstrip s) as [|c r]; [exact I|].
  rewrite E in Hs. exact Hs.
Qed.

Lemma strip_idempotent (s : str) : strip (strip s) = strip s.
Proof.
  unfold strip at 1.
  rewrite (lstrip_fixed (strip s)).
  - apply rstrip_fixed. unfold strip. apply rstrip_last.
  - unfold strip. apply rstrip_keeps_head, lstrip_head.
Qed.

Lemma In_drop_while (f : char -> bool) (s : str) (c : char) :
  In c (drop_while f s) -> In c s.
Proof.
  induction s as [|x s IH]; simpl; [auto|].
  destruct (f x); [right; apply IH; assumption | auto].
Qed.

Lemma In_strip (s : str) (c : char) : In c (strip s) -> In c s.
Proof.
  unfold strip, rstrip, lstrip. intros Hin.
  apply in_rev, In_drop_while, in_rev in Hin. apply In_drop_while in Hin. exact Hin.
Qed.

End StripShape.

(** ** The rules of a stylesheet, on the text *)

Section RulesOnText.
Import Py Css CssSpec.

Lemma not_In_forallb (x : char) (s : str) :
  ~ In x s -> forallb (is_not x) s = true.
Proof.
  intros Hn. apply forallb_forall. intros c Hc. apply is_not_true.
  intros ->. contradiction.
Qed.

Lemma is_not_self (x : char) : is_not x x = false.
Proof. unfold is_not. rewrite char_eqb_refl. reflexivity. Qed.

Lemma match_rule_complete (selectors body post : str) :
  is_rule selectors body ->
  match_rule (selectors ++ LBRACE :: body ++ RBRACE :: post) = Some (selectors, body).
Proof.
  intros [Hs [Hsb [Hb Hbb]]]. unfold match_rule.
  rewrite (take_while_app_all (is_not LBRACE) selectors) by (apply not_In_forallb, Hsb).
  rewrite (drop_while_app_all (is_not LBRACE) selectors) by (apply not_In_forallb, Hsb).
  rewrite (take_while_stop (is_not LBRACE)) by apply is_not_self.
  rewrite (drop_while_stop (is_not LBRACE)) by apply is_not_self.
  rewrite app_nil_r. destruct selectors as [|c sel]; [contradiction|].
  rewrite (take_while_app_all (is_not RBRACE) body) by (apply not_In_forallb, Hbb).
  rewrite (drop_while_app_all (is_not RBRACE) body) by (apply not_In_forallb, Hbb).
  rewrite (take_while_stop (is_not RBRACE)) by apply is_not_self.
  rewrite (drop_while_stop (is_not RBRACE)) by apply is_not_self.
  rewrite app_nil_r. destruct body as [|d body]; [contradiction|]. reflexivity.
Qed.

Lemma match_rule_rule_here (s : str) :
  match_rule s = None <-> ~ rule_here s.
Proof.
  split.
  - intros E [selectors [body [post [Hr ->]]]].
    rewrite (match_rule_complete selectors body post Hr) in E. discriminate.
  - intros Hn. destruct (match_rule s) as [[selectors body]|] eqn:E; [|reflexivity].
    exfalso. apply Hn. apply match_rule_Some in E.
    destruct E as [Hs [Hb [Hsb [Hbb [rest ->]]]]].
    exists selectors, body, rest. unfold is_rule. auto.
Qed.

Lemma finditer_rules_skipn (k : nat) (s : str) :
  finditer_rules k s = finditer_rules 0 (skipn k s).
Proof.
  revert k. induction s as [|c s IH]; intros k.
  - destruct k; reflexivity.
  - destruct k as [|k]; [reflexivity|]. simpl. apply IH.
Qed.

Lemma finditer_rules_rule (selectors body post : str) :
  is_rule selectors body ->
  finditer_rules 0 (selectors ++ LBRACE :: body ++ RBRACE :: post)
  = (selectors, body) :: finditer_rules 0 post.
Proof.
  intros Hr. pose proof (match_rule_complete selectors body post Hr) as E.
  destruct Hr as [Hs _]. destruct selectors as [|c sel]; [contradiction|].
  cbn [finditer_rules app]. cbn [app] in E. rewrite E. f_equal.
  rewrite finditer_rules_skipn. f_equal.
  replace (List.length (c :: sel) + List.length body + 1)%nat
    with (List.length (sel ++ LBRACE :: body ++ [RBRACE])).
  - replace (sel ++ LBRACE :: body ++ RBRACE :: post)
      with ((sel ++ LBRACE :: body ++ [RBRACE]) ++ post).
    + rewrite skipn_app, skipn_all, Nat.sub_diag. reflexivity.
    + rewrite <- app_assoc. cbn [app]. rewrite <- app_assoc. reflexivity.
  - rewrite length_app. cbn [List.length]. rewrite length_app. cbn [List.length]. lia.
Qed.

Lemma finditer_rules_no_rule (c : char) (s : str) :
  ~ rule_here (c :: s) ->
  finditer_rules 0 (c :: s) = finditer_rules 0 s.
Proof.
  intros Hn. apply match_rule_rule_here in Hn. cbn [finditer_rules].
  rewrite Hn. reflexivity.
Qed.

Lemma rule_here_nil : ~ rule_here [].
Proof.
  intros [selectors [body [post [_ E]]]]. destruct selectors; discriminate.
Qed.

Lemma rules_spec_shift (c : char) (t : str) (rules : list (str * str)) :
  rules_spec t rules -> ~ rule_here (c :: t) -> rules_spec (c :: t) rules.
Proof.
  intros Hr Hn. destruct Hr as [text Hnone | pre selectors body post rules Hrule Hleft Hrest].
  - apply rules_none. intros pre s E. destruct pre as [|x pre].
    + cbn [app] in E. subst s. exact Hn.
    + inversion E; subst. apply (Hnone pre s eq_refl).
  - change (c :: pre ++ selectors ++ LBRACE :: body ++ RBRACE :: post)
      with ((c :: pre) ++ selectors ++ LBRACE :: body ++ RBRACE :: post).
    apply rules_next; [exact Hrule | | exact Hrest].
    intros pre1 pre2 E Hne. destruct pre1 as [|x pre1].
    + cbn [app] in E. subst pre2. exact Hn.
    + inversion E; subst. apply (Hleft pre1 pre2 eq_refl Hne).
Qed.

(** The matches of the rule pattern are the rules of the text. *)
Lemma finditer_rules_spec (text : str) : rules_spec text (finditer_rules 0 text).
Proof.
  assert (G : forall n text, (List.length text <= n)%nat ->
                             rules_spec text (finditer_rules 0 text)).
  { induction n as [|n IH]; intros t Hlen.
    - destruct t; [|simpl in Hlen; lia]. apply rules_none.
      intros pre s E. symmetry in E. apply app_eq_nil in E. destruct E as [_ ->].
      apply rule_here_nil.
    - destruct t as [|c t].
      + apply rules_none. intros pre s E. symmetry in E.
        apply app_eq_nil in E. destruct E as [_ ->]. apply rule_here_nil.
      + destruct (match_rule (c :: t)) as [[selectors body]|] eqn:E.
        * apply match_rule_Some in E.
          destruct E as [Hs [Hb [Hsb [Hbb [post E]]]]].
          assert (Hr : is_rule selectors body) by (unfold is_rule; auto).
          rewrite E, (finditer_rules_rule selectors body post Hr).
          apply (rules_next [] selectors body post); [exact Hr | |].
          -- intros pre1 pre2 E0 Hne. symmetry in E0.
             apply app_eq_nil in E0. destruct E0 as [_ ->]. contradiction.
          -- apply IH. apply (f_equal (@List.length _)) in E.
             rewrite length_app in E. cbn [List.length] in E.
             rewrite length_app in E. cbn [List.length] in E.
             simpl in Hlen. lia.
        * apply match_rule_rule_here in E.
          rewrite (finditer_rules_no_rule c t E).
          apply rules_spec_shift; [|exact E]. apply IH. simpl in Hlen. lia. }
  apply (G (List.length text)). lia.
Qed.

(** A text has no other rules. *)
Lemma rules_spec_finditer (text : str) (rules : list (str * str)) :
  rules_spec text rules -> rules = finditer_rules 0 text.
Proof.
  induction 1 as [text Hnone | pre selectors body post rules Hrule Hleft Hrest IH].
  - induction text as [|c t IHt]; [reflexivity|].
    rewrite finditer_rules_no_rule by (apply (Hnone [] (c :: t) eq_refl)).
    apply IHt. intros pre s E. apply (Hnone (c :: pre) s). rewrite E. reflexivity.
  - induction pre as [|c pre IHp].
    + cbn [app]. rewrite (finditer_rules_rule selectors body post Hrule), IH.
      reflexivity.
    + cbn [app]. rewrite finditer_rules_no_rule.
      * apply IHp. intros pre1 pre2 E Hne. apply (Hleft (c :: pre1) pre2); [|exact Hne].
        rewrite E. reflexivity.
      * apply (Hleft [] (c :: pre) eq_refl). discriminate.
Qed.

End RulesOnText.

(** ** [_extract_css_property] *)

Section PropertyFacts.
Import Py Css.

Lemma semi_not_space : isspace SEMI = false.
Proof. reflexivity. Qed.

Lemma match_property_no_semi (prop s v : str) :
  match_property prop s = Some v -> ~ In SEMI v.
Proof.
  unfold match_property.
  destruct (strip_prefix_ci prop s) as [r1|]; [|discriminate].
  destruct (drop_while isspace r1) as [|c r2]; [discriminate|].
  destruct (char_eqb c COLON); [|discriminate].
  pose proof (take_while_forallb (is_not SEMI) (drop_while isspace r2)) as Hv.
  destruct (take_while (is_not SEMI) (drop_while isspace r2)) as [|x value].
  - pose proof (take_while_forallb isspace r2) as Hw.
    rewrite forallb_forall in Hw.
    destruct (rev (take_while isspace r2)) as [|w ws] eqn:Er; [discriminate|].
    intros E. inversion E; subst v. intros [Ew | []]. subst w.
    assert (Hin : In SEMI (take_while isspace r2))
      by (apply in_rev; rewrite Er; left; reflexivity).
    apply Hw in Hin. rewrite semi_not_space in Hin. discriminate.
  - intros E. inversion E; subst v. apply forallb_is_not, Hv.
Qed.

(** X2. A value returned by [_extract_css_property] holds no semicolon and
    no blank at either end (stripping it again changes nothing). *)
Theorem extract_css_property_shape (block : option str) (prop v : str) :
  _extract_css_property block prop = Some v ->
  ~ In SEMI v /\ strip v = v.
Proof.
  unfold _extract_css_property.
  destruct block as [[|c text]|]; try discriminate.
  destruct (re_search (match_property prop) (c :: text)) as [g|] eqn:E;
    [|discriminate].
  intros Ev. inversion Ev; subst v.
  apply re_search_Some in E. destruct E as [pre [rest [_ Hm]]].
  split.
  - intros Hin. apply In_strip in Hin.
    apply (match_property_no_semi _ _ _ Hm Hin).
  - apply strip_idempotent.
Qed.

Lemma extract_css_property_shape_witness :
  _extract_css_property (Some (u "color: red ; width:1px")) (u "color")
  = Some (u "red")
  /\ ~ In SEMI (u "red") /\ strip (u "red") = u "red".
Proof.
  split; [reflexivity|].
  exact (extract_css_property_shape
           (Some (u "color: red ; width:1px")) (u "color") (u "red") eq_refl).
Defined.

Lemma ci_match_refl (c : char) : ci_match c c = true.
Proof.
  unfold ci_match. rewrite char_eqb_refl. reflexivity.
Qed.

Lemma strip_prefix_ci_variant (prop variant rest : str) :
  Forall2 (fun l c => ci_match l c = true) prop variant ->
  strip_prefix_ci prop (variant ++ rest) = Some rest.
Proof.
  intros Hv. induction Hv as [|l c prop variant Hlc Hv IH]; simpl; [reflexivity|].
  rewrite Hlc. exact IH.
Qed.

Lemma colon_not_space : isspace COLON = false.
Proof. reflexivity. Qed.

(** X3. Reading back a declaration: a block that starts with the property
    name in any letter case, then blanks, a colon, blanks, and a value that
    holds no semicolon and starts with no blank, the value being followed
    by a semicolon or by the end of the block, yields that value with its
    trailing blanks removed. *)
Theorem extract_css_property_reads_declaration
    (prop variant ws1 ws2 value rest : str) :
  Forall2 (fun l c => ci_match l c = true) prop variant ->
  forallb isspace ws1 = true -> forallb isspace ws2 = true ->
  value <> [] -> ~ In SEMI value ->
  match value with [] => True | c :: _ => isspace c = false end ->
  match rest with [] => True | c :: _ => c = SEMI end ->
  _extract_css_property
    (Some (variant ++ ws1 ++ COLON :: ws2 ++ value ++ rest)) prop
  = Some (rstrip value).
Proof.
  intros Hvar Hw1 Hw2 Hne Hsemi Hhead Hrest.
  assert (Hm : match_property prop (variant ++ ws1 ++ COLON :: ws2 ++ value ++ rest)
               = Some value).
  { unfold match_property. rewrite (strip_prefix_ci_variant _ _ _ Hvar).
    rewrite (drop_while_app_all isspace ws1 _ Hw1).
    rewrite (drop_while_stop isspace (COLON :: ws2 ++ value ++ rest))
      by reflexivity.
    cbv beta iota. rewrite char_eqb_refl.
    rewrite (drop_while_app_all isspace ws2 _ Hw2).
    assert (Hd : drop_while isspace (value ++ rest) = value ++ rest).
    { apply drop_while_stop. destruct value; [contradiction | exact Hhead]. }
    rewrite Hd.
    assert (Hall : forallb (is_not SEMI) value = true).
    { rewrite forallb_forall. intros x Hx. apply is_not_true. intros ->. contradiction. }
    rewrite (take_while_app_all (is_not SEMI) value rest Hall).
    rewrite take_while_stop.
    - rewrite app_nil_r. destruct value; [contradiction | reflexivity].
    - destruct rest as [|c rest]; [exact I|]. subst c. reflexivity. }
  unfold _extract_css_property.
  destruct (variant ++ ws1 ++ COLON :: ws2 ++ value ++ rest) as [|c text] eqn:Eb.
  - destruct variant; [destruct ws1; discriminate | discriminate].
  - rewrite (re_search_here _ _ _ Hm). f_equal.
    unfold strip. rewrite lstrip_fixed by exact Hhead. reflexivity.
Qed.

Lemma extract_css_property_reads_declaration_witness :
  _extract_css_property (Some (u "WIDTH : 200px ;height:1px")) (u "width")
  = Some (u "200px").
Proof.
  exact (extract_css_property_reads_declaration
           (u "width") (u "WIDTH") (u " ") (u " ") (u "200px ") (u ";height:1px")
           ltac:(repeat constructor) eq_refl eq_refl ltac:(discriminate)
           ltac:(vm_compute; intuition discriminate) eq_refl eq_refl).
Defined.

End PropertyFacts.

(** ** The border radius *)

Section RadiusFacts.
Import Py Css Render Style.

Variable py_float : str -> option float.

Lemma parse_radius_exclusive (val : str) :
  fst (parse_radius py_float val) = None \/ snd (parse_radius py_float val) = None.
Proof.
  unfold parse_radius.
  destruct (endswith val (u "%")); [right; reflexivity|].
  destruct (endswith val (u "px")); left; reflexivity.
Qed.

Lemma inline_radius_exclusive (style : str) :
  fst (inline_radius py_float style) = None
  \/ snd (inline_radius py_float style) = None.
Proof.
  unfold inline_radius. destruct style as [|c style]; [left; reflexivity|].
  destruct (re_search match_border_radius (c :: style));
    [apply parse_radius_exclusive | left; reflexivity].
Qed.

Lemma class_radius_exclusive (css : option str) (classes : list str) :
  fst (class_radius py_float css classes) = None
  \/ snd (class_radius py_float css classes) = None.
Proof.
  induction classes as [|c rest IH]; simpl; [left; reflexivity|].
  destruct (negb (truthy (_css_block_for_class css c))); [exact IH|].
  destruct (negb (truthy (_extract_css_property _ _)));
    [exact IH | apply parse_radius_exclusive].
Qed.

(** X4. Whatever the inline style, the classes and the stylesheet are, and
    whatever [float] makes of the numbers, the rasterizer never resolves
    both a percentage radius and a pixel radius: at most one of
    [border_radius_pct] and [border_radius_px] is set. *)
Theorem border_radius_exclusive (d : DivTag) (css : option str) :
  fst (border_radius py_float d css) = None
  \/ snd (border_radius py_float d css) = None.
Proof.
  unfold border_radius.
  destruct (inline_radius_exclusive (div_style d)) as [E | E];
    destruct (inline_radius py_float (div_style d)) as [[pct|] [px|]];
    simpl in E; try discriminate; auto;
    destruct (truthy css); auto; apply class_radius_exclusive.
Qed.

End RadiusFacts.

(** ** The three object-fit branches *)

Section FitFacts.
Import Render Style.
Local Open Scope Z_scope.

(** X6. Whenever [cover] completes, the scaled image is at least one pixel
    wide and high and the crop offsets are not negative; when the scaled
    image is at least as large as the target the crop window lies inside it;
    and a pixel position that leaves the window inside is used as it is. *)
Theorem cover_crop_bounds (img_w img_h tw th : Z) (pos : object_position)
    (r : cover_result) :
  cover img_w img_h tw th pos = Some r ->
  1 <= scaled_w r /\ 1 <= scaled_h r /\ 0 <= crop_left r /\ 0 <= crop_top r
  /\ (tw <= scaled_w r -> crop_left r + tw <= scaled_w r)
  /\ (th <= scaled_h r -> crop_top r + th <= scaled_h r)
  /\ (forall x y, pos = PosPx x y ->
                  0 <= x <= scaled_w r - tw -> 0 <= y <= scaled_h r - th ->
                  crop_left r = x /\ crop_top r = y).
Proof.
  unfold cover.
  destruct (py_int _) as [w|]; [|discriminate].
  destruct (py_int _) as [h|]; [|discriminate].
  destruct (cover_offset (Z.max 1 w - tw) (pos_x pos)) as [ox|] eqn:Ex;
    [|discriminate].
  destruct (cover_offset (Z.max 1 h - th) (pos_y pos)) as [oy|] eqn:Ey;
    [|discriminate].
  intros [= <-]. simpl.
  repeat (split; [lia|]).
  intros x y -> Hx Hy. simpl in Ex, Ey. inversion Ex; inversion Ey; subst. lia.
Qed.

Lemma cover_crop_bounds_witness :
  cover 200 100 100 100 (PosPct 100 50)
  = Some {| scaled_w := 200; scaled_h := 100; crop_left := 100; crop_top := 0 |}
  /\ 100 + 100 <= 200.
Proof.
  split; [vm_compute; reflexivity|].
  pose proof (cover_crop_bounds 200 100 100 100 (PosPct 100 50)
                {| scaled_w := 200; scaled_h := 100; crop_left := 100; crop_top := 0 |}
                ltac:(vm_compute; reflexivity)) as [_ [_ [_ [_ [Hin _]]]]].
  apply Hin. simpl. lia.
Defined.

(** X7. With [object-fit: contain] and no percentage position, the scaled
    image is pasted centred: whenever it is no larger than the target it
    lies inside the canvas, and the margins on the two sides differ by at
    most one pixel. *)
Theorem contain_paste_centred (img_w img_h tw th : Z) (pos : object_position)
    (r : contain_result) :
  contain img_w img_h tw th pos = Some r ->
  fst (pos_x pos) = None ->
  contain_w r <= tw -> contain_h r <= th ->
  1 <= contain_w r /\ 1 <= contain_h r
  /\ 0 <= paste_x r /\ paste_x r + contain_w r <= tw
  /\ 0 <= paste_y r /\ paste_y r + contain_h r <= th
  /\ 0 <= (tw - (paste_x r + contain_w r)) - paste_x r <= 1
  /\ 0 <= (th - (paste_y r + contain_h r)) - paste_y r <= 1.
Proof.
  unfold contain. intros E Hpos.
  assert (Hposy : fst (pos_y pos) = None) by (destruct pos; simpl in *; congruence).
  revert E.
  destruct (py_int _) as [w|]; [|discriminate].
  destruct (py_int _) as [h|]; [|discriminate].
  unfold contain_offset. rewrite Hpos, Hposy.
  intros [= <-]. simpl.
  intros Hw Hh.
  pose proof (Z.div_mod (tw - Z.max 1 w) 2 ltac:(lia)) as Dx.
  pose proof (Z.mod_pos_bound (tw - Z.max 1 w) 2 ltac:(lia)) as Mx.
  pose proof (Z.div_mod (th - Z.max 1 h) 2 ltac:(lia)) as Dy.
  pose proof (Z.mod_pos_bound (th - Z.max 1 h) 2 ltac:(lia)) as My.
  lia.
Qed.

Lemma contain_paste_centred_witness :
  contain 200 100 100 100 PosDefault
  = Some {| contain_w := 100; contain_h := 50; paste_x := 0; paste_y := 25 |}
  /\ 0 <= 25 /\ 25 + 50 <= 100.
Proof.
  split; [vm_compute; reflexivity|].
  pose proof (contain_paste_centred 200 100 100 100 PosDefault
                {| contain_w := 100; contain_h := 50; paste_x := 0; paste_y := 25 |}
                ltac:(vm_compute; reflexivity) eq_refl
                ltac:(simpl; lia) ltac:(simpl; lia))
    as [_ [_ [_ [_ [H1 [H2 _]]]]]].
  simpl in H1, H2. split; assumption.
Defined.

(** X8. With [object-fit: none] (or any unknown value) the crop window lies
    inside the source whenever the source is at least as large as the
    target, wherever the pixel position points; a percentage position is
    not read at all; and with no pixel position the window is centred. *)
Theorem crop_none_window (img_w img_h tw th : Z) (pos : object_position) :
  tw <= img_w -> th <= img_h ->
  let left := fst (crop_none img_w img_h tw th pos) in
  let top := snd (crop_none img_w img_h tw th pos) in
  0 <= left /\ left + tw <= img_w /\ 0 <= top /\ top + th <= img_h
  /\ (forall x y, crop_none img_w img_h tw th (PosPct x y)
                  = crop_none img_w img_h tw th PosDefault)
  /\ (snd (pos_x pos) = None ->
      left = (img_w - tw) / 2 /\ top = (img_h - th) / 2).
Proof.
  intros Hw Hh. unfold crop_none. simpl.
  repeat (split; [lia|]). split; [reflexivity|].
  intros Hpos.
  assert (Hposy : snd (pos_y pos) = None) by (destruct pos; simpl in *; congruence).
  rewrite Hpos, Hposy. simpl.
  pose proof (Z.div_mod (img_w - tw) 2 ltac:(lia)) as Dx.
  pose proof (Z.mod_pos_bound (img_w - tw) 2 ltac:(lia)) as Mx.
  pose proof (Z.div_mod (img_h - th) 2 ltac:(lia)) as Dy.
  pose proof (Z.mod_pos_bound (img_h - th) 2 ltac:(lia)) as My.
  lia.
Qed.

Lemma crop_none_window_witness :
  (100 <= 200 /\ 100 <= 100)
  /\ 0 <= fst (crop_none 200 100 100 100 (PosPx 500 (-3)))
  /\ fst (crop_none 200 100 100 100 (PosPx 500 (-3))) + 100 <= 200.
Proof.
  split; [lia|].
  pose proof (crop_none_window 200 100 100 100 (PosPx 500 (-3))
                ltac:(lia) ltac:(lia)) as [H1 [H2 _]].
  split; assumption.
Defined.

End FitFacts.

(** ** The target size, further *)

Section SizeMore.
Import Py Css Render.
Local Open Scope Z_scope.

Variable W : World.

(** Decimal digits have values from 0 on. *)
Hypothesis nd_nonneg : forall c v, nd_value W c = Some v -> 0 <= v.

Lemma digit_value_nonneg (c : char) (v : Z) :
  digit_value W c = Some v -> 0 <= v.
Proof.
  unfold digit_value, in_range.
  destruct (N.leb 48 c && N.leb c 57)%bool eqn:E.
  - apply andb_true_iff in E. destruct E as [E _]. apply N.leb_le in E.
    intros [= <-]. lia.
  - destruct (N.ltb c 128); [discriminate | apply nd_nonneg].
Qed.

Lemma int_of_digits_nonneg (ds : str) : 0 <= int_of_digits W ds.
Proof.
  assert (G : forall acc, 0 <= acc ->
              0 <= fold_left
                     (fun acc c => match digit_value W c with
                                   | Some v => 10 * acc + v
                                   | None => acc
                                   end) ds acc).
  { induction ds as [|c ds IH]; intros acc Hacc; cbn [fold_left]; [exact Hacc|].
    apply IH. destruct (digit_value W c) as [v|] eqn:E; [|exact Hacc].
    apply digit_value_nonneg in E. lia. }
  apply G. lia.
Qed.

Lemma py_int_of_digits_nonneg (ds : str) (n : Z) :
  py_int_of_digits W ds = Some n -> 0 <= n.
Proof.
  unfold py_int_of_digits. destruct (_ && _)%bool; [discriminate|].
  intros [= <-]. apply int_of_digits_nonneg.
Qed.

Lemma match_px_nonneg (prop_colon s : str) (n : Z) :
  match_px W prop_colon s = Some (Some n) -> 0 <= n.
Proof.
  unfold match_px.
  destruct (strip_prefix prop_colon s) as [r|]; [|discriminate].
  destruct (take_while (is_digit W) (drop_while isspace r)) as [|c ds];
    [discriminate|].
  destruct (startswith _ _); [|discriminate].
  intros [= E]. apply py_int_of_digits_nonneg in E. exact E.
Qed.

Lemma inline_px_nonneg (prop_colon style : str) :
  0 <= inline_px W prop_colon style.
Proof.
  unfold inline_px.
  destruct (re_search (match_px W prop_colon) style) as [[n|]|] eqn:E; [|lia|lia].
  apply re_search_Some in E. destruct E as [pre [rest [_ E]]].
  apply match_px_nonneg in E. exact E.
Qed.

Lemma class_px_nonneg (v : option str) (old n : Z) :
  0 <= old -> class_px W v old = Some n -> 0 <= n.
Proof.
  intros Hold. unfold class_px.
  destruct (truthy v && endswith (strip (or_empty v)) (u "px"))%bool;
    [|intros [= <-]; exact Hold].
  destruct (take_while (is_digit W) (strip (or_empty v)));
    [intros [= <-]; exact Hold|].
  apply py_int_of_digits_nonneg.
Qed.

Lemma class_size_nonneg (css : option str) (classes : list str) (wh : Z * Z) :
  0 <= fst wh -> 0 <= snd wh ->
  0 <= fst (class_size W css classes wh) /\ 0 <= snd (class_size W css classes wh).
Proof.
  intros Hw Hh. induction classes as [|c rest IH]; simpl; [auto|].
  destruct (negb (truthy (_css_block_for_class css c))); [exact IH|].
  destruct (class_px W (_extract_css_property (_css_block_for_class css c) (u "width"))
              (fst wh)) as [w|] eqn:Ew; [|auto].
  apply class_px_nonneg in Ew; [|exact Hw].
  destruct (class_px W (_extract_css_property (_css_block_for_class css c) (u "height"))
              (snd wh)) as [h|] eqn:Eh; [|simpl; auto].
  apply class_px_nonneg in Eh; [|exact Hh]. simpl. auto.
Qed.

(** X9. The target size is never negative: every width and height the
    rasterizer resolves, inline or from a class rule, is a run of decimal
    digits read as a number, and the default is 400. *)
Theorem target_size_nonneg (d : DivTag) (css : option str) :
  0 <= fst (target_size W d css) /\ 0 <= snd (target_size W d css).
Proof.
  unfold target_size.
  pose proof (inline_px_nonneg (u "width:") (div_style d)) as Hw.
  pose proof (inline_px_nonneg (u "height:") (div_style d)) as Hh.
  destruct (truthy css); [apply class_size_nonneg; assumption | auto].
Qed.

End SizeMore.

Section SizeRuns.
Import Py Css Render Examples MoreExamples.
Local Open Scope Z_scope.

Lemma target_size_nonneg_witness :
  0 <= fst (target_size world_local div_inline_and_class css_class_width)
  /\ 0 <= snd (target_size world_local div_inline_and_class css_class_width).
Proof.
  exact (target_size_nonneg world_local ltac:(intros c v E; discriminate E)
           div_inline_and_class css_class_width).
Defined.

(** X10. The target size depends on the list of classes only through the
    first class, in the order of the attribute, that has a rule block in
    the stylesheet: classes without a block before it are passed over, and
    the classes after it are never looked at, even when its block gives no
    width or height. *)
Theorem target_size_first_class_decides
    (W : World) (css : option str) (d d' : DivTag) :
  div_style d = div_style d' ->
  find (fun c => truthy (_css_block_for_class css c)) (div_classes d)
  = find (fun c => truthy (_css_block_for_class css c)) (div_classes d') ->
  target_size W d css = target_size W d' css.
Proof.
  intros Hstyle Hfind. unfold target_size. rewrite <- Hstyle.
  destruct (truthy css); [|reflexivity].
  set (wh := (inline_px W (u "width:") (div_style d),
              inline_px W (u "height:") (div_style d))).
  assert (G : forall classes,
             class_size W css classes wh
             = match find (fun c => truthy (_css_block_for_class css c)) classes with
               | Some c => class_size W css [c] wh
               | None => wh
               end).
  { induction classes as [|c rest IH]; [reflexivity|].
    cbn [class_size find].
    destruct (truthy (_css_block_for_class css c)) eqn:E; cbn [negb].
    - cbn [class_size]. rewrite E. reflexivity.
    - exact IH. }
  rewrite (G (div_classes d)), (G (div_classes d')), Hfind. reflexivity.
Qed.

Lemma target_size_first_class_decides_witness :
  target_size world_local div_three_classes css_two_classes
  = target_size world_local div_one_class css_two_classes.
Proof.
  apply (target_size_first_class_decides world_local css_two_classes
           div_three_classes div_one_class); reflexivity.
Defined.

End SizeRuns.

(** ** The name of the bitmap across processes *)

Section PathMore.
Import Py Css Render.
Local Open Scope Z_scope.

(** X11. Two rasterizer processes that share a temporary directory write to
    the same path exactly when they have the same process id and their
    slide and fragment indices agree (a missing index counting as 0):
    concurrent processes never overwrite each other's bitmaps. *)
Theorem png_path_across_processes (W1 W2 : World) (si di si' di' : option Z) :
  tempdir W1 = tempdir W2 ->
  (png_path W1 si di = png_path W2 si' di'
   <-> getpid W1 = getpid W2
       /\ or_zero si = or_zero si' /\ or_zero di = or_zero di').
Proof.
  intros Htmp. split.
  - unfold png_path. rewrite Htmp. intros E.
    apply os_path_join_inj in E; [|reflexivity|reflexivity].
    unfold png_name in E. apply app_inv_head in E.
    change (u "_") with [95%N] in E. simpl in E.
    apply app_sep_inj in E; try apply str_of_int_digits.
    destruct E as [Epid E]. apply str_of_int_inj in Epid.
    apply app_sep_inj in E; try apply str_of_int_digits.
    destruct E as [E1 E2]. apply str_of_int_inj in E1.
    apply app_inv_tail in E2. apply str_of_int_inj in E2. auto.
  - intros [Epid [E1 E2]]. unfold png_path, png_name.
    rewrite Htmp, Epid, E1, E2. reflexivity.
Qed.

End PathMore.

Section PathMoreRuns.
Import Py Render Examples.

(** Two processes, 4242 and 4243, on one machine, at the same slide and
    fragment. *)
Lemma png_path_across_processes_witness :
  tempdir world_local = tempdir world_other_process
  /\ getpid world_local <> getpid world_other_process
  /\ (png_path world_local (Some 1%Z) (Some 2%Z)
      = png_path world_other_process (Some 1%Z) (Some 2%Z)
      <-> getpid world_local = getpid world_other_process
          /\ or_zero (Some 1%Z) = or_zero (Some 1%Z)
          /\ or_zero (Some 2%Z) = or_zero (Some 2%Z)).
Proof.
  split; [reflexivity|]. split; [discriminate|].
  apply (png_path_across_processes world_local world_other_process
           (Some 1%Z) (Some 2%Z) (Some 1%Z) (Some 2%Z)).
  reflexivity.
Defined.

End PathMoreRuns.

(** ** The source of the image, further *)

Section SourceMore.
Import Py Css Render.

Variable W : World.

(** Characters that may stand in a plain URL: no closing parenthesis, no
    quote, no newline. *)
Lemma lazy_group_plain (close : str -> bool) (p tail : str) :
  p <> [] ->
  Forall (fun c => char_eqb c NEWLINE = false) p ->
  (forall pre x, p = pre ++ x -> pre <> [] -> x <> [] -> close (x ++ tail) = false) ->
  close tail = true ->
  lazy_group close (p ++ tail) = Some p.
Proof.
  induction p as [|c p IH]; intros Hne Hnl Hmid Hend; [contradiction|].
  inversion Hnl as [|? ? Hc Hp]; subst. simpl. rewrite Hc.
  destruct p as [|c' p].
  - simpl. rewrite Hend. reflexivity.
  - rewrite (Hmid [c] (c' :: p) eq_refl) by discriminate.
    rewrite IH; [reflexivity | discriminate | exact Hp | | exact Hend].
    intros pre x E Hpre Hx. apply (Hmid (c :: pre) x); [|discriminate|exact Hx].
    rewrite E. reflexivity.
Qed.

End SourceMore.

Section InlineBackground.
Import Py Css Render.

Lemma ci_match_u (c : char) : ci_match 117%N c = true -> isspace c = false.
Proof.
  unfold ci_match, in_range, char_eqb. simpl.
  rewrite !orb_false_r.
  destruct (N.leb 65 c && N.leb c 90)%bool eqn:Eup.
  - apply andb_true_iff in Eup. destruct Eup as [H1 H2].
    apply N.leb_le in H1, H2. intros E. apply N.eqb_eq in E.
    assert (Ec : c = 85%N) by lia. subst c. reflexivity.
  - intros E. apply N.eqb_eq in E. subst c. reflexivity.
Qed.

Lemma quote_not_paren (q : char) : is_quote q = true -> char_eqb q RPAREN = false.
Proof.
  unfold is_quote. rewrite orb_true_iff, !char_eqb_eq.
  intros [-> | ->]; reflexivity.
Qed.

Lemma close_inline_end (qc rest : str) :
  (qc = [] \/ exists q, qc = [q] /\ is_quote q = true) ->
  match drop_while isspace rest with [] => True | c :: _ => c = SEMI end ->
  close_inline (qc ++ RPAREN :: rest) = true.
Proof.
  intros Hq Hrest. unfold close_inline.
  assert (E : close_paren (qc ++ RPAREN :: rest) = Some rest).
  { destruct Hq as [-> | [q [-> Hq]]]; simpl.
    - reflexivity.
    - rewrite (quote_not_paren q Hq), Hq. reflexivity. }
  rewrite E. destruct (drop_while isspace rest) as [|c r]; [reflexivity|].
  subst c. apply char_eqb_refl.
Qed.

Lemma close_inline_plain (c : char) (x : str) :
  char_eqb c RPAREN = false -> is_quote c = false -> close_inline (c :: x) = false.
Proof. intros H1 H2. unfold close_inline. simpl. rewrite H1, H2. reflexivity. Qed.

(** X13. Reading back an inline background image: for a div with no [img]
    source whose style starts with [background-image:] and [url(] in any
    letter case, around a URL of characters other than a closing
    parenthesis, a quote and a newline, optionally quoted on either side
    and followed by a [;] or the end, the source string is that URL, the
    quotes dropped, whatever the stylesheet says. *)
Theorem inline_background_reads_url
    (d : DivTag) (css : option str) (bg ws url qo p qc rest : str) :
  (forall img, div_img d = Some img -> img_src img = None) ->
  div_style_attr d = Some (bg ++ ws ++ url ++ qo ++ p ++ qc ++ RPAREN :: rest) ->
  Forall2 (fun l c => ci_match l c = true) (u "background-image:") bg ->
  Forall2 (fun l c => ci_match l c = true) (u "url(") url ->
  forallb isspace ws = true ->
  (qo = [] \/ exists q, qo = [q] /\ is_quote q = true) ->
  (qc = [] \/ exists q, qc = [q] /\ is_quote q = true) ->
  p <> [] ->
  Forall (fun c => char_eqb c RPAREN = false /\ is_quote c = false
                   /\ char_eqb c NEWLINE = false) p ->
  match drop_while isspace rest with [] => True | c :: _ => c = SEMI end ->
  src_str d css = p.
Proof.
  intros Himg Hstyle Hbg Hurl Hws Hqo Hqc Hne Hplain Hrest.
  set (tail := qc ++ RPAREN :: rest).
  assert (Hlazy : lazy_group close_inline (p ++ tail) = Some p).
  { apply lazy_group_plain.
    - exact Hne.
    - eapply Forall_impl; [|exact Hplain]. intros c [_ [_ Hc]]. exact Hc.
    - intros pre x E _ Hx. destruct x as [|c x]; [contradiction|].
      assert (Hc : In c p) by (rewrite E; apply in_elt).
      rewrite Forall_forall in Hplain. destruct (Hplain c Hc) as [H1 [H2 _]].
      apply close_inline_plain; assumption.
    - apply close_inline_end; assumption. }
  assert (Hgroup : url_group close_inline (qo ++ p ++ tail) = Some p).
  { destruct Hqo as [-> | [q [-> Hq]]]; simpl.
    - destruct p as [|c p']; [contradiction|].
      inversion Hplain as [|? ? [_ [Hc _]] _]; subst.
      change ((c :: p') ++ tail) with (c :: p' ++ tail) in *.
      unfold url_group. rewrite Hc. exact Hlazy.
    - rewrite Hq, Hlazy. reflexivity. }
  assert (Hm : match_inline_bg (bg ++ ws ++ url ++ qo ++ p ++ tail) = Some p).
  { unfold match_inline_bg. rewrite (strip_prefix_ci_variant _ _ _ Hbg).
    rewrite (drop_while_app_all isspace ws _ Hws).
    rewrite drop_while_stop.
    - rewrite (strip_prefix_ci_variant _ _ _ Hurl). exact Hgroup.
    - inversion Hurl as [|l c ls cs Hc _]; subst. simpl. apply ci_match_u, Hc. }
  unfold src_str, div_style. rewrite Hstyle. simpl or_empty.
  destruct (div_img d) as [[[src|] st]|] eqn:Ed.
  - specialize (Himg _ eq_refl). discriminate.
  - unfold tail in Hm. rewrite (re_search_here _ _ _ Hm). reflexivity.
  - unfold tail in Hm. rewrite (re_search_here _ _ _ Hm). reflexivity.
Qed.

End InlineBackground.

Section InlineBackgroundRuns.
Import Py Css Render MoreExamples.

Lemma inline_background_reads_url_witness :
  src_str div_inline_background None = u "bg/pic.png".
Proof.
  apply (inline_background_reads_url div_inline_background None
           (u "background-image:") (u " ") (u "url(") (u "'") (u "bg/pic.png")
           (u "'") (u " ; width:100px")).
  - intros img E. discriminate E.
  - reflexivity.
  - repeat constructor.
  - repeat constructor.
  - reflexivity.
  - right. exists 39%N. split; reflexivity.
  - right. exists 39%N. split; reflexivity.
  - discriminate.
  - repeat constructor.
  - reflexivity.
Defined.

End InlineBackgroundRuns.

(** ** Cleaning text and files *)

Section CleanMore.
Import Py Preprocessing.

(** X14. [remove_invisible_characters] works character by character: the
    cleaned form of a concatenation is the concatenation of the cleaned
    parts, the result is never longer than the input, and it is empty
    exactly when the input holds nothing but the six invisible code
    points. *)
Theorem remove_invisible_characters_pieces (a b : str) :
  remove_invisible_characters (a ++ b)
  = remove_invisible_characters a ++ remove_invisible_characters b
  /\ (List.length (remove_invisible_characters a) <= List.length a)%nat
  /\ (remove_invisible_characters a = []
      <-> forall c, In c a -> is_invisible c = true).
Proof.
  unfold remove_invisible_characters. rewrite !re_sub_class_empty.
  split; [apply filter_app|]. split; [apply filter_length_le|].
  induction a as [|c a IH]; simpl.
  - split; [intros _ x [] | reflexivity].
  - destruct (is_invisible c) eqn:E; simpl.
    + rewrite IH. split.
      * intros Hall x [<- | Hx]; [exact E | apply Hall, Hx].
      * intros Hall x Hx. apply Hall. right. exact Hx.
    + split; [discriminate|]. intros Hall.
      rewrite (Hall c (or_introl eq_refl)) in E. discriminate.
Qed.

Lemma str_eqb_eq (a b : str) : str_eqb a b = true <-> a = b.
Proof.
  revert b. induction a as [|x a IH]; intros [|y b]; simpl;
    try (split; [discriminate | discriminate]); [split; reflexivity|].
  rewrite andb_true_iff, char_eqb_eq, IH. split.
  - intros [-> ->]. reflexivity.
  - intros [= -> ->]. auto.
Qed.

Lemma str_eqb_refl (a : str) : str_eqb a a = true.
Proof. apply str_eqb_eq. reflexivity. Qed.

End CleanMore.

(** ** The selector list *)

Section SelectorFacts.
Import Py Css.

Lemma split_not_nil (sep : char) (s : str) : split sep s <> [].
Proof.
  destruct s as [|c s]; simpl; [discriminate|].
  destruct (char_eqb c sep); [discriminate|].
  destruct (split sep s); discriminate.
Qed.

Lemma split_no_sep (sep : char) (s piece : str) :
  In piece (split sep s) -> ~ In sep piece.
Proof.
  revert piece. induction s as [|c s IH]; simpl; intros piece.
  - intros [<- | []]. intros [].
  - destruct (char_eqb c sep) eqn:E.
    + intros [<- | Hin]; [intros [] | apply IH, Hin].
    + destruct (split sep s) as [|p ps] eqn:Es.
      * intros [<- | []]. intros [Ec | []]. subst c.
        rewrite char_eqb_refl in E. discriminate.
      * intros [<- | Hin].
        -- intros [Ec | Hin].
           ++ subst c. rewrite char_eqb_refl in E. discriminate.
           ++ apply (IH p); [left; reflexivity | exact Hin].
        -- apply IH. right. exact Hin.
Qed.

(** X18. The selector list of a rule is never empty, and each of its
    selectors holds no comma and no blank at either end. *)
Theorem sel_list_shape (selectors : str) :
  sel_list selectors <> []
  /\ forall s, In s (sel_list selectors) -> ~ In COMMA s /\ strip s = s.
Proof.
  unfold sel_list. split.
  - pose proof (split_not_nil COMMA selectors) as Hne.
    destruct (split COMMA selectors); [contradiction | discriminate].
  - intros s Hin. apply in_map_iff in Hin. destruct Hin as [piece [<- Hin]].
    split; [|apply strip_idempotent].
    intros Hc. apply In_strip in Hc. apply (split_no_sep _ _ _ Hin Hc).
Qed.

End SelectorFacts.

(** ** The selectors of a rule, on the text *)

Section SelectorsOnText.
Import Py Css CssSpec.

Lemma split_cons_shape (sep : char) (s : str) :
  exists p ps, split sep s = p :: ps.
Proof.
  destruct s as [|c s]; simpl; [eauto|].
  destruct (char_eqb c sep); [eauto|].
  destruct (split sep s); eauto.
Qed.

Lemma join_cons (sep : char) (p : str) (rest : list str) :
  rest <> [] -> join sep (p :: rest) = p ++ sep :: join sep rest.
Proof. destruct rest; [contradiction | reflexivity]. Qed.

Lemma join_split (sep : char) (s : str) : join sep (split sep s) = s.
Proof.
  induction s as [|c s IH]; [reflexivity|]. cbn [split].
  destruct (split_cons_shape sep s) as [p [ps E]]. rewrite E in *.
  destruct (char_eqb c sep) eqn:Ec.
  - apply char_eqb_eq in Ec. subst c.
    rewrite join_cons by discriminate. rewrite IH. reflexivity.
  - destruct ps as [|q ps].
    + simpl in *. rewrite IH. reflexivity.
    + rewrite join_cons by discriminate.
      rewrite join_cons in IH by discriminate.
      cbn [app]. rewrite IH. reflexivity.
Qed.

Lemma join_middle (sep : char) (l1 l2 : list str) (piece : str) :
  exists pre post,
    join sep (l1 ++ piece :: l2) = pre ++ piece ++ post
    /\ (pre = [] \/ exists p, pre = p ++ [sep])
    /\ (post = [] \/ exists q, post = sep :: q).
Proof.
  induction l1 as [|x l1 IH].
  - exists []. destruct l2 as [|y l2].
    + exists []. cbn [app join]. rewrite app_nil_r. auto.
    + exists (sep :: join sep (y :: l2)). cbn [app].
      rewrite join_cons by discriminate.
      split; [reflexivity|]. split; [left; reflexivity | right; eexists; reflexivity].
  - destruct IH as [pre [post [E [Hpre Hpost]]]].
    exists (x ++ sep :: pre), post. split; [|split; [|exact Hpost]].
    + cbn [app]. rewrite join_cons by (destruct l1; discriminate).
      rewrite E. rewrite <- app_assoc. reflexivity.
    + right. destruct Hpre as [-> | [p ->]].
      * exists x. reflexivity.
      * exists (x ++ sep :: p). rewrite <- app_assoc. reflexivity.
Qed.

Lemma split_single (sep : char) (piece : str) :
  ~ In sep piece -> split sep piece = [piece].
Proof.
  induction piece as [|c piece IH]; intros Hn; [reflexivity|]. cbn [split].
  destruct (char_eqb c sep) eqn:Ec.
  - apply char_eqb_eq in Ec. subst c. exfalso. apply Hn. left. reflexivity.
  - rewrite IH; [reflexivity|]. intros Hin. apply Hn. right. exact Hin.
Qed.

Lemma split_app_sep (sep : char) (a b : str) :
  split sep (a ++ sep :: b) = split sep a ++ split sep b.
Proof.
  induction a as [|c a IH].
  - cbn [app split]. rewrite char_eqb_refl. reflexivity.
  - cbn [app split]. rewrite IH.
    destruct (char_eqb c sep); [reflexivity|].
    destruct (split_cons_shape sep a) as [p [ps E]]. rewrite E. reflexivity.
Qed.

(** The pieces of [split] are what stands between two separators, or
    between a separator and an end of the text. *)
Lemma split_In_iff (sep : char) (s piece : str) :
  In piece (split sep s)
  <-> exists pre post,
        s = pre ++ piece ++ post
        /\ ~ In sep piece
        /\ (pre = [] \/ exists p, pre = p ++ [sep])
        /\ (post = [] \/ exists q, post = sep :: q).
Proof.
  split.
  - intros Hin. pose proof (split_no_sep sep s piece Hin) as Hn.
    apply in_split in Hin. destruct Hin as [l1 [l2 E]].
    destruct (join_middle sep l1 l2 piece) as [pre [post [Ej [Hpre Hpost]]]].
    exists pre, post. rewrite <- Ej, <- E, join_split. auto.
  - intros [pre [post [-> [Hn [Hpre Hpost]]]]].
    assert (Hmid : forall post, (post = [] \/ exists q, post = sep :: q) ->
                                In piece (split sep (piece ++ post))).
    { intros post0 [-> | [q ->]].
      - rewrite app_nil_r, split_single by exact Hn. left. reflexivity.
      - rewrite split_app_sep, split_single by exact Hn. left. reflexivity. }
    destruct Hpre as [-> | [p ->]].
    + apply Hmid, Hpost.
    + rewrite <- app_assoc. cbn [app]. rewrite split_app_sep.
      apply in_or_app. right. apply Hmid, Hpost.
Qed.

Lemma forallb_rev (f : char -> bool) (s : str) :
  forallb f s = true -> forallb f (rev s) = true.
Proof.
  rewrite !forallb_forall. intros H x Hx. apply H. apply in_rev. exact Hx.
Qed.

(** [strip] removes the blanks at both ends and nothing else. *)
Lemma strip_spec (s : str) :
  exists ws1 ws2,
    s = ws1 ++ strip s ++ ws2
    /\ forallb isspace ws1 = true /\ forallb isspace ws2 = true
    /\ trimmed (strip s).
Proof.
  destruct (rstrip_decompose (lstrip s)) as [ws2 [E2 H2]].
  exists (take_while isspace s), ws2. split; [|split; [|split]].
  - unfold strip. rewrite <- E2. unfold lstrip. symmetry. apply take_drop_while.
  - apply take_while_forallb.
  - exact H2.
  - split.
    + unfold strip. apply rstrip_keeps_head, lstrip_head.
    + unfold strip. apply rstrip_last.
Qed.

Lemma strip_unique (ws1 core ws2 : str) :
  forallb isspace ws1 = true -> forallb isspace ws2 = true -> trimmed core ->
  strip (ws1 ++ core ++ ws2) = core.
Proof.
  intros H1 H2 [Hhead Hlast]. unfold strip, lstrip.
  rewrite (drop_while_app_all isspace ws1) by exact H1.
  destruct core as [|c core].
  - cbn [app]. rewrite <- (app_nil_r ws2).
    rewrite (drop_while_app_all isspace ws2) by exact H2. reflexivity.
  - rewrite (drop_while_stop isspace ((c :: core) ++ ws2)) by exact Hhead.
    unfold rstrip. rewrite rev_app_distr.
    rewrite (drop_while_app_all isspace (rev ws2)) by (apply forallb_rev, H2).
    rewrite (drop_while_stop isspace (rev (c :: core))) by exact Hlast.
    apply rev_involutive.
Qed.

(** The selector list of the code holds the selectors of the text. *)
Lemma selector_of_iff (selectors sel : str) :
  selector_of selectors sel <-> In sel (sel_list selectors).
Proof.
  unfold selector_of, sel_list. rewrite in_map_iff. split.
  - intros [pre [ws1 [ws2 [post [E [Hpre [Hpost [Hn [H1 [H2 Ht]]]]]]]]]].
    exists (ws1 ++ sel ++ ws2). split; [apply strip_unique; assumption|].
    apply split_In_iff. exists pre, post. auto.
  - intros [piece [Es Hin]]. apply split_In_iff in Hin.
    destruct Hin as [pre [post [E [Hn [Hpre Hpost]]]]].
    destruct (strip_spec piece) as [ws1 [ws2 [Ep [H1 [H2 Ht]]]]].
    rewrite Es in Ep, Ht. exists pre, ws1, ws2, post.
    rewrite <- Ep. auto 10.
Qed.

Lemma rule_selects_iff (class_name : str) (rule : str * str) :
  rule_selects class_name rule <-> rule_names class_name rule.
Proof.
  unfold rule_selects, rule_names. split.
  - intros [sel [Hs Hb]]. exists sel. split; [apply selector_of_iff, Hs | exact Hb].
  - intros [sel [Hs Hb]]. exists sel. split; [apply selector_of_iff, Hs | exact Hb].
Qed.

(** C5, as the code has it. For every stylesheet and class name: the
    stylesheet has exactly one list of rules; [_css_block_for_class] returns
    the block of the first rule one of whose selectors (the selector text
    cut at the commas, the blanks around each piece removed) holds the
    token [.<class>] with nothing or a non-identifier character on either
    side, and it returns no block exactly when no rule has such a selector.
    Nothing else of a selector is looked at. For a class name that does not
    end in a blank, removing the blanks changes nothing: the pieces between
    the commas hold the bounded token as they stand. *)
Theorem css_block_for_class_spec (css : option str) (class_name : str) :
  (exists rules, stylesheet_rules css rules)
  /\ (forall rules, stylesheet_rules css rules ->
        (forall body,
            _css_block_for_class css class_name = Some body
            <-> exists before selectors after,
                  rules = before ++ (selectors, body) :: after
                  /\ rule_selects class_name (selectors, body)
                  /\ forall r, In r before -> ~ rule_selects class_name r)
        /\ (_css_block_for_class css class_name = None
            <-> forall r, In r rules -> ~ rule_selects class_name r))
  /\ (ends_without_blank class_name ->
      forall r,
        rule_selects class_name r
        <-> exists piece, In piece (split COMMA (fst r))
                          /\ bounded_token class_name piece).
Proof.
  assert (Hrules : stylesheet_rules css (rules_of css)).
  { destruct css as [text|]; [apply finditer_rules_spec | reflexivity]. }
  assert (Huniq : forall rules, stylesheet_rules css rules -> rules = rules_of css).
  { intros rules Hr. destruct css as [text|];
      [apply rules_spec_finditer, Hr | exact Hr]. }
  split; [exists (rules_of css); exact Hrules|]. split.
  - intros rules Hr. rewrite (Huniq rules Hr). rewrite css_block_first_block. split.
    + intros body. rewrite first_block_Some. split.
      * intros [before [selectors [after [E [Hn Hb]]]]].
        exists before, selectors, after. split; [exact E|].
        split; [apply rule_selects_iff, Hn|].
        intros r Hin Hs. apply (Hb r Hin). apply rule_selects_iff, Hs.
      * intros [before [selectors [after [E [Hn Hb]]]]].
        exists before, selectors, after. split; [exact E|].
        split; [apply rule_selects_iff, Hn|].
        intros r Hin Hs. apply (Hb r Hin). apply rule_selects_iff, Hs.
    + rewrite first_block_None. split.
      * intros Hnone r Hin Hs. apply (Hnone r Hin). apply rule_selects_iff, Hs.
      * intros Hnone r Hin Hs. apply (Hnone r Hin). apply rule_selects_iff, Hs.
  - intros Hcls r. rewrite rule_selects_iff. apply rule_names_unstripped, Hcls.
Qed.

(** C5 as the specification states it fails for a class name that ends in
    a blank. The stylesheet [.a {x}] has the one rule of selector text
    [.a ] and block [x]; cut at the commas, the selector text is the piece
    [.a ], which holds the token [.a ] of the class name [a ] between its
    two ends; yet no block is returned, the blank having been removed from
    the piece before the search. *)
Lemma css_block_claim_counterexample :
  stylesheet_rules (Some (u ".a {x}")) [(u ".a ", u "x")]
  /\ In (u ".a ") (split COMMA (u ".a "))
  /\ bounded_token (u "a ") (u ".a ")
  /\ _css_block_for_class (Some (u ".a {x}")) (u "a ") = None
  /\ _css_block_for_class (Some (u ".a {x}")) (u "a") = Some (u "x").
Proof.
  split; [apply (finditer_rules_spec (u ".a {x}"))|].
  split; [left; reflexivity|].
  split; [|split; reflexivity].
  exists [], []. split; [reflexivity|]. split; [left; reflexivity | exact I].
Qed.

End SelectorsOnText.

